(** * Attempt guard of ldcstore: [src/lib/rate-limit.ts]

    A shallow embedding of the in-memory login rate limiter and the
    properties its specification states about it.

    Conventions of the embedding:
    - JavaScript numbers that hold timestamps (milliseconds, as read
      from [Date.now()]) and attempt counters are integers, modelled
      as [Z];
    - the module-level [Map<string, RateLimitRecord>] called
      [loginAttempts] is a [gmap string RateLimitRecord] that every
      operation receives and returns (explicit state passing);
    - [Date.now()] is an extra argument [now] of every operation;
    - an optional property ([message?: string]) is an [option]. *)

From Stdlib Require Import ZArith Lia Ascii.
From stdpp Require Import gmap strings pretty.

Local Open Scope Z_scope.

(** ** Data model *)

(** [interface RateLimitRecord] (rate-limit.ts, lines 9-15). *)
Record RateLimitRecord : Type := mkRecord {
  count : Z;
  firstAttempt : Z;
  lastAttempt : Z;
  blocked : bool;
  blockedUntil : Z
}.

(** [interface RateLimitResult] (lines 54-60).  The field [blocked] of
    the result is called [res_blocked] here, as the record above
    already owns the projection [blocked]. *)
Record RateLimitResult : Type := mkResult {
  success : bool;
  remaining : Z;
  resetIn : Z;
  res_blocked : bool;
  message : option string
}.

(** The store [loginAttempts] (line 18). *)
Abbreviation Store := (gmap string RateLimitRecord).

(** [const CONFIG] (lines 21-30). *)
Module CONFIG.
Definition WINDOW_MS : Z := 15 * 60 * 1000.
Definition MAX_ATTEMPTS : Z := 5.
Definition BLOCK_DURATION_MS : Z := 30 * 60 * 1000.
Definition CLEANUP_INTERVAL_MS : Z := 5 * 60 * 1000.
End CONFIG.

(** [Math.ceil(a / b)] on integers [a] and a positive integer [b]. *)
Definition ceil_div (a b : Z) : Z := - ((- a) / b).

(** ** Messages (template literals of the source) *)

Definition msg_blocked (resetIn : Z) : string :=
  "登录尝试次数过多，请 " +:+ pretty (ceil_div resetIn 60) +:+ " 分钟后再试".

Definition msg_exhausted : string := "尝试次数过多，请稍后再试".

Definition msg_locked (resetIn : Z) : string :=
  "登录尝试次数过多，账户已被临时锁定 " +:+ pretty (ceil_div resetIn 60) +:+ " 分钟".

Definition msg_remaining (remaining : Z) : string :=
  "还剩 " +:+ pretty remaining +:+ " 次尝试机会".

(** ** checkRateLimit (lines 66-115) *)

(** Lines 72-80, shared verbatim by [recordFailedAttempt] (127-134). *)
Definition still_blocked (record : RateLimitRecord) (now : Z) : RateLimitResult :=
  let resetIn := ceil_div (blockedUntil record - now) 1000 in
  {| success := false;
     remaining := 0;
     resetIn := resetIn;
     res_blocked := true;
     message := Some (msg_blocked resetIn) |}.

(** Lines 87-114: the part of [checkRateLimit] after the block test,
    run on the local variable [record] (possibly reset to
    [undefined]). *)
Definition check_window (record : option RateLimitRecord) (now : Z) : RateLimitResult :=
  match record with
  | None =>
      {| success := true; remaining := CONFIG.MAX_ATTEMPTS;
         resetIn := ceil_div CONFIG.WINDOW_MS 1000;
         res_blocked := false; message := None |}
  | Some record =>
      if now - firstAttempt record >? CONFIG.WINDOW_MS then
        {| success := true; remaining := CONFIG.MAX_ATTEMPTS;
           resetIn := ceil_div CONFIG.WINDOW_MS 1000;
           res_blocked := false; message := None |}
      else
        let remaining := CONFIG.MAX_ATTEMPTS - count record in
        if remaining <=? 0 then
          {| success := false; remaining := 0;
             resetIn := ceil_div (firstAttempt record + CONFIG.WINDOW_MS - now) 1000;
             res_blocked := false; message := Some msg_exhausted |}
        else
          {| success := true; remaining := remaining;
             resetIn := ceil_div (firstAttempt record + CONFIG.WINDOW_MS - now) 1000;
             res_blocked := false; message := None |}
  end.

Definition checkRateLimit (identifier : string) (now : Z) (loginAttempts : Store)
  : RateLimitResult * Store :=
  let record := loginAttempts !! identifier in
  match record with
  | Some r =>
      if blocked r then
        if blockedUntil r >? now then (still_blocked r now, loginAttempts)
        else
          (* loginAttempts.delete(identifier); record = undefined *)
          (check_window None now, delete identifier loginAttempts)
      else (check_window record now, loginAttempts)
  | None => (check_window record now, loginAttempts)
  end.

(** ** recordFailedAttempt (lines 121-186) *)

(** The record literal of lines 139-145. *)
Definition fresh_record (now : Z) : RateLimitRecord :=
  {| count := 1; firstAttempt := now; lastAttempt := now;
     blocked := false; blockedUntil := 0 |}.

(** Lines 137-154. *)
Definition start_window (identifier : string) (now : Z) (loginAttempts : Store)
  : RateLimitResult * Store :=
  ({| success := true; remaining := CONFIG.MAX_ATTEMPTS - 1;
      resetIn := ceil_div CONFIG.WINDOW_MS 1000;
      res_blocked := false; message := None |},
   <[identifier := fresh_record now]> loginAttempts).

(** Lines 157-158: [record.count += 1; record.lastAttempt = now]. *)
Definition bump (record : RateLimitRecord) (now : Z) : RateLimitRecord :=
  {| count := count record + 1; firstAttempt := firstAttempt record;
     lastAttempt := now;
     blocked := blocked record; blockedUntil := blockedUntil record |}.

(** Lines 162-163: [record.blocked = true; record.blockedUntil = now + ...]. *)
Definition lock (record : RateLimitRecord) (now : Z) : RateLimitRecord :=
  {| count := count record; firstAttempt := firstAttempt record;
     lastAttempt := lastAttempt record;
     blocked := true; blockedUntil := now + CONFIG.BLOCK_DURATION_MS |}.

(** Lines 166-173. *)
Definition locked_out : RateLimitResult :=
  let resetIn := ceil_div CONFIG.BLOCK_DURATION_MS 1000 in
  {| success := false; remaining := 0; resetIn := resetIn;
     res_blocked := true; message := Some (msg_locked resetIn) |}.

(** Lines 177-185, on the record already incremented. *)
Definition counted (record : RateLimitRecord) (now : Z) : RateLimitResult :=
  let remaining := CONFIG.MAX_ATTEMPTS - count record in
  {| success := true; remaining := remaining;
     resetIn := ceil_div (firstAttempt record + CONFIG.WINDOW_MS - now) 1000;
     res_blocked := false;
     message := if remaining <=? 2 then Some (msg_remaining remaining) else None |}.

(** Lines 156-185: [record] is the object stored in the map, updated
    in place and stored again under the same key. *)
Definition count_failure (identifier : string) (record : RateLimitRecord) (now : Z)
    (loginAttempts : Store) : RateLimitResult * Store :=
  let record := bump record now in
  if count record >=? CONFIG.MAX_ATTEMPTS then
    let record := lock record now in
    (locked_out, <[identifier := record]> loginAttempts)
  else
    (counted record now, <[identifier := record]> loginAttempts).

Definition recordFailedAttempt (identifier : string) (now : Z) (loginAttempts : Store)
  : RateLimitResult * Store :=
  let record := loginAttempts !! identifier in
  match record with
  | Some r =>
      if blocked r && (blockedUntil r >? now) then (still_blocked r now, loginAttempts)
      else if now - firstAttempt r >? CONFIG.WINDOW_MS then
        start_window identifier now loginAttempts
      else count_failure identifier r now loginAttempts
  | None => start_window identifier now loginAttempts
  end.

(** ** clearRateLimit (lines 192-194) *)

Definition clearRateLimit (identifier : string) (loginAttempts : Store) : Store :=
  delete identifier loginAttempts.

(** ** The reaper: one run of the [setInterval] callback (lines 39-47) *)

(** The test of lines 42-46 that decides whether an entry is deleted. *)
Definition expired (now : Z) (record : RateLimitRecord) : bool :=
  if blocked record && (blockedUntil record <? now) then true
  else if negb (blocked record) && (now - firstAttempt record >? CONFIG.WINDOW_MS) then true
  else false.

(** The body of the loop (lines 40-47) on one entry. *)
Definition visit (now : Z) (m : Store) (entry : string * RateLimitRecord) : Store :=
  let (key, record) := entry in
  if expired now record then delete key m else m.

(** The loop over [loginAttempts.entries()], deleting from the map it
    iterates over.  Only the entry being visited is ever deleted, so
    every entry present at the start is visited once. *)
Definition cleanup (now : Z) (loginAttempts : Store) : Store :=
  foldl (visit now) loginAttempts (map_to_list loginAttempts).

(** ** Traces of calls *)

(** The calls a login handler and the timer make on the store. *)
Inductive op : Type :=
  | OpCheck (identifier : string)
  | OpRecordFailure (identifier : string)
  | OpClear (identifier : string)
  | OpCleanup.

(** The effect of one call on the store, at clock reading [now]. *)
Definition exec (o : op) (now : Z) (loginAttempts : Store) : Store :=
  match o with
  | OpCheck identifier => (checkRateLimit identifier now loginAttempts).2
  | OpRecordFailure identifier => (recordFailedAttempt identifier now loginAttempts).2
  | OpClear identifier => clearRateLimit identifier loginAttempts
  | OpCleanup => cleanup now loginAttempts
  end.

(** Stores the module can be in: it starts empty (line 18) and changes
    only through the four calls.  The index is the last clock reading;
    successive readings of [Date.now()] do not decrease. *)
Inductive reachable : Z -> Store -> Prop :=
  | reachable_init (t : Z) : reachable t ∅
  | reachable_step (t now : Z) (s : Store) (o : op) :
      reachable t s -> t <= now -> reachable now (exec o now s).

(** A run of timed calls, oldest first. *)
Definition run (trace : list (Z * op)) (s : Store) : Store :=
  foldl (fun s '(now, o) => exec o now s) s trace.

(** The clock readings of a run never go back, starting from [t]. *)
Fixpoint clock_ok (t : Z) (trace : list (Z * op)) : Prop :=
  match trace with
  | [] => True
  | (now, _) :: trace => t <= now /\ clock_ok now trace
  end.

Fixpoint last_time (t : Z) (trace : list (Z * op)) : Z :=
  match trace with
  | [] => t
  | (now, _) :: trace => last_time now trace
  end.

(** The store in which the identifier of the scenario of the
    specification has just been locked out, all five failures at
    clock reading 0. *)
Definition locked_store : Store :=
  run (replicate 5 (0, OpRecordFailure "1.2.3.4")) ∅.

(** Successive [recordFailedAttempt] calls for one identifier, at the
    given clock readings; the results in call order and the final store. *)
Fixpoint recordFailures (identifier : string) (times : list Z) (s : Store)
  : list RateLimitResult * Store :=
  match times with
  | [] => ([], s)
  | now :: times =>
      let (res, s1) := recordFailedAttempt identifier now s in
      let (rs, s2) := recordFailures identifier times s1 in
      (res :: rs, s2)
  end.

(** Successive [checkRateLimit] calls for one identifier. *)
Fixpoint checks (identifier : string) (times : list Z) (s : Store)
  : list RateLimitResult * Store :=
  match times with
  | [] => ([], s)
  | now :: times =>
      let (res, s1) := checkRateLimit identifier now s in
      let (rs, s2) := checks identifier times s1 in
      (res :: rs, s2)
  end.

Definition has_message (res : RateLimitResult) : bool :=
  match message res with Some _ => true | None => false end.

(** ** Predicates of the specification *)

(** The answer of a guard that knows nothing about the identifier. *)
Definition allow_fresh : RateLimitResult :=
  {| success := true; remaining := 5; resetIn := 900;
     res_blocked := false; message := None |}.

(** Shape every decision is expected to have. *)
Definition decision_shape (res : RateLimitResult) : Prop :=
  0 <= remaining res
  /\ (success res = true -> res_blocked res = false)
  /\ (res_blocked res = true -> success res = false /\ remaining res = 0).

(** Eviction rule of the reaper, in the words of the specification. *)
Definition reapable (now : Z) (record : RateLimitRecord) : Prop :=
  (blocked record = true /\ blockedUntil record < now)
  \/ (blocked record = false /\ CONFIG.WINDOW_MS < now - firstAttempt record).

#[global] Instance reapable_dec now record : Decision (reapable now record).
Proof. unfold reapable. apply _. Defined.

(** What holds of every record of a reachable store at clock reading
    [t]: its window started in the past, and a block lasts for the
    whole block duration counted from a moment inside the window. *)
Definition record_ok (t : Z) (record : RateLimitRecord) : Prop :=
  firstAttempt record <= t
  /\ (blocked record = true ->
      firstAttempt record + CONFIG.BLOCK_DURATION_MS <= blockedUntil record).

Definition store_ok (t : Z) (s : Store) : Prop :=
  map_Forall (fun _ record => record_ok t record) s.

(** The one case in which [checkRateLimit] touches the map (lines 82-84). *)
Definition block_lapsed (identifier : string) (now : Z) (s : Store) : bool :=
  match s !! identifier with
  | Some record => blocked record && (blockedUntil record <=? now)
  | None => false
  end.

(** The answers of [recordFailedAttempt] calls at the given times that
    all count towards the window of [record]. *)
Fixpoint counted_run (record : RateLimitRecord) (times : list Z) : list RateLimitResult :=
  match times with
  | [] => []
  | now :: times => counted (bump record now) now :: counted_run (bump record now) times
  end.

(** The full shape of the records of a reachable store at clock
    reading [t], read off the three places that write a record
    (lines 139-145, 157-158, 162-163). *)
Definition record_inv (t : Z) (record : RateLimitRecord) : Prop :=
  firstAttempt record <= lastAttempt record
  /\ lastAttempt record <= t
  /\ lastAttempt record - firstAttempt record <= CONFIG.WINDOW_MS
  /\ (blocked record = false ->
      1 <= count record < CONFIG.MAX_ATTEMPTS /\ blockedUntil record = 0)
  /\ (blocked record = true ->
      count record = CONFIG.MAX_ATTEMPTS
      /\ blockedUntil record = lastAttempt record + CONFIG.BLOCK_DURATION_MS).

Definition store_inv (t : Z) (s : Store) : Prop :=
  map_Forall (fun _ record => record_inv t record) s.

(** ** getClientIP (lines 200-218) *)

(** The request headers: [Headers.get(name)] is the lookup of the
    lower-case name.  A header value is a byte string, one character
    per byte, as Node hands it over. *)
Abbreviation Headers := (gmap string string).

(** The characters [String.prototype.trim] strips, among the 256 a
    header value can hold: TAB, LF, VT, FF, CR, space and NBSP. *)
Definition is_white_space (c : Ascii.ascii) : bool :=
  match Ascii.N_of_ascii c with
  | 9 | 10 | 11 | 12 | 13 | 32 | 160 => true
  | _ => false
  end%N.

Definition is_comma (c : Ascii.ascii) : bool := Ascii.eqb c ","%char.

(** [value.split(",")[0]]: what comes before the first comma. *)
Fixpoint before_comma (value : string) : string :=
  match value with
  | EmptyString => EmptyString
  | String c rest => if is_comma c then EmptyString else String c (before_comma rest)
  end.

Fixpoint trim_start (value : string) : string :=
  match value with
  | EmptyString => EmptyString
  | String c rest => if is_white_space c then trim_start rest else value
  end.

Fixpoint trim_end (value : string) : string :=
  match value with
  | EmptyString => EmptyString
  | String c rest =>
      match trim_end rest with
      | EmptyString => if is_white_space c then EmptyString else String c EmptyString
      | kept => String c kept
      end
  end.

(** [value.trim()]. *)
Definition trim (value : string) : string := trim_end (trim_start value).

(** JavaScript truthiness of [headers.get(name)]: present and not empty. *)
Definition truthy (value : option string) : option string :=
  match value with
  | Some EmptyString => None
  | other => other
  end.

Definition getClientIP (headers : Headers) : string :=
  match truthy (headers !! "cf-connecting-ip") with
  | Some cfConnectingIP => cfConnectingIP
  | None =>
      match truthy (headers !! "x-forwarded-for") with
      | Some xForwardedFor => trim (before_comma xForwardedFor)
      | None =>
          match truthy (headers !! "x-real-ip") with
          | Some xRealIP => xRealIP
          | None => "unknown"
          end
      end
  end.

Fixpoint occurs (c : Ascii.ascii) (value : string) : bool :=
  match value with
  | EmptyString => false
  | String c' rest => Ascii.eqb c c' || occurs c rest
  end.

Definition first_char (value : string) : option Ascii.ascii :=
  match value with
  | EmptyString => None
  | String c _ => Some c
  end.

Fixpoint last_char (value : string) : option Ascii.ascii :=
  match value with
  | EmptyString => None
  | String c EmptyString => Some c
  | String _ rest => last_char rest
  end.

Fixpoint all_white_space (value : string) : bool :=
  match value with
  | EmptyString => true
  | String c rest => is_white_space c && all_white_space rest
  end.

(** ** adminLogin (src/lib/actions/auth.ts, lines 27-113) *)

(** [interface LoginResult] (auth.ts, lines 17-22). *)
Record LoginResult : Type := mkLogin {
  login_success : bool;
  login_message : string;
  login_remaining : option Z;
  login_blocked : option bool
}.

(** What the call of [signIn] (imported from [@/lib/auth], not part of
    these sources) can do, as far as [adminLogin] tells the cases
    apart: return without an error, return a result whose [error] is
    set, throw an [Error] whose message contains "CredentialsSignin",
    or throw anything else. *)
Inductive SignInOutcome : Type :=
  | SignedIn
  | SignInError
  | ThrowsCredentialsSignin
  | ThrowsOther.

(** [a || b] on an optional string and a string. *)
Definition or_else (value : option string) (fallback : string) : string :=
  match truthy value with
  | Some m => m
  | None => fallback
  end.

(** Lines 64-69 and, verbatim, 90-95. *)
Definition failure_message (failResult : RateLimitResult) : string :=
  if res_blocked failResult then
    or_else (message failResult) "登录尝试次数过多，请稍后再试"
  else if remaining failResult <=? 2 then
    "密码错误，还剩 " +:+ pretty (remaining failResult) +:+ " 次尝试机会"
  else "密码错误".

(** [loginSchema.safeParse({ password })] (lines 13-15, 44): the only
    rule is [min(1)]. *)
Definition parse_password (password : string) : option string :=
  match password with
  | EmptyString => None
  | _ => Some password
  end.

(** [adminLogin]: [signIn] is the imported function, [now1] the clock
    read by [checkRateLimit] and [now2] the one read by
    [recordFailedAttempt] after [signIn] came back.  The
    [console.error] of line 107 is not modelled. *)
Definition adminLogin (signIn : string -> SignInOutcome) (headersList : Headers)
    (password : string) (now1 now2 : Z) (loginAttempts : Store) : LoginResult * Store :=
  let clientIP := getClientIP headersList in
  let (rateLimit, loginAttempts) := checkRateLimit clientIP now1 loginAttempts in
  if negb (success rateLimit) then
    ({| login_success := false;
        login_message := or_else (message rateLimit) "请求过于频繁，请稍后再试";
        login_remaining := Some (remaining rateLimit);
        login_blocked := Some (res_blocked rateLimit) |}, loginAttempts)
  else
    match parse_password password with
    | None =>
        ({| login_success := false; login_message := "请输入密码";
            login_remaining := None; login_blocked := None |}, loginAttempts)
    | Some password =>
        match signIn password with
        | SignedIn =>
            ({| login_success := true; login_message := "登录成功";
                login_remaining := None; login_blocked := None |},
             clearRateLimit clientIP loginAttempts)
        | SignInError | ThrowsCredentialsSignin =>
            let (failResult, loginAttempts) :=
              recordFailedAttempt clientIP now2 loginAttempts in
            ({| login_success := false; login_message := failure_message failResult;
                login_remaining := Some (remaining failResult);
                login_blocked := Some (res_blocked failResult) |}, loginAttempts)
        | ThrowsOther =>
            let (failResult, loginAttempts) :=
              recordFailedAttempt clientIP now2 loginAttempts in
            ({| login_success := false; login_message := "登录失败，请稍后再试";
                login_remaining := None; login_blocked := None |}, loginAttempts)
        end
    end.

(** One request: the password sent and the two clock readings. *)
Record Attempt : Type := mkAttempt {
  att_password : string;
  att_checked : Z;
  att_recorded : Z
}.

(** Successive [adminLogin] requests carrying the same headers. *)
Fixpoint adminLogins (signIn : string -> SignInOutcome) (headersList : Headers)
    (attempts : list Attempt) (s : Store) : list LoginResult * Store :=
  match attempts with
  | [] => ([], s)
  | a :: attempts =>
      let (res, s1) :=
        adminLogin signIn headersList (att_password a) (att_checked a) (att_recorded a) s in
      let (rs, s2) := adminLogins signIn headersList attempts s1 in
      (res :: rs, s2)
  end.

(** The [signIn] of the examples: one good password, a result with
    [error] set for every other one. *)
Definition signIn_secret (password : string) : SignInOutcome :=
  if String.eqb password "secret" then SignedIn else SignInError.

(** ** Concrete runs *)

Example check_unknown :
  (checkRateLimit "5.6.7.8" 1000 ∅).1 = allow_fresh.
Proof. reflexivity. Qed.

Example four_failures :
  (recordFailures "1.2.3.4" [0; 10; 20; 30] ∅).1
  = [ mkResult true 4 900 false None;
      mkResult true 3 900 false None;
      mkResult true 2 900 false (Some "还剩 2 次尝试机会");
      mkResult true 1 900 false (Some "还剩 1 次尝试机会") ].
Proof. vm_compute. reflexivity. Qed.

Example fifth_failure :
  (recordFailures "1.2.3.4" [0; 10; 20; 30; 40] ∅).2 !! "1.2.3.4"
  = Some (mkRecord 5 0 40 true 1800040).
Proof. vm_compute. reflexivity. Qed.

Example white_space_chars :
  map is_white_space [" "; "009"; "160"; "a"; ","; "133"]%char
  = [true; true; true; false; false; false].
Proof. reflexivity. Qed.

Example forwarded_for_blank :
  getClientIP (<["x-forwarded-for" := " ,1.2.3.4"]> (<["x-real-ip" := "9.9.9.9"]> ∅))
  = EmptyString.
Proof. reflexivity. Qed.

(** ** Basic facts *)

Lemma window_value : CONFIG.WINDOW_MS = 900000.
Proof. reflexivity. Qed.

Lemma block_value : CONFIG.BLOCK_DURATION_MS = 1800000.
Proof. reflexivity. Qed.

Lemma max_value : CONFIG.MAX_ATTEMPTS = 5.
Proof. reflexivity. Qed.

Lemma check_window_none now : check_window None now = allow_fresh.
Proof. reflexivity. Qed.

Lemma check_window_elapsed record now :
  CONFIG.WINDOW_MS < now - firstAttempt record ->
  check_window (Some record) now = allow_fresh.
Proof.
  intros Hlate. unfold check_window.
  destruct (Z.gtb_spec (now - firstAttempt record) CONFIG.WINDOW_MS); [reflexivity | lia].
Qed.

(** Comparisons of the source turned into propositions. *)
Ltac cmp :=
  repeat match goal with
  | |- context [?a >? ?b] => destruct (Z.gtb_spec a b)
  | |- context [?a >=? ?b] => destruct (Z.geb_spec a b)
  | |- context [?a <=? ?b] => destruct (Z.leb_spec a b)
  | |- context [?a <? ?b] => destruct (Z.ltb_spec a b)
  end.

(** *** The reaper as a filter *)

Section Reaper.
Variable now : Z.

Lemma expired_reapable record : expired now record = true <-> reapable now record.
Proof.
  unfold expired, reapable. destruct (blocked record); simpl; cmp; split;
    intros; try discriminate; try reflexivity; intuition (try discriminate; lia).
Qed.

Lemma visit_absent entries (m : Store) key :
  m !! key = None -> foldl (visit now) m entries !! key = None.
Proof.
  revert m. induction entries as [|[k r] entries IH]; intros m Hm; simpl; [exact Hm|].
  apply IH. destruct (expired now r); [|exact Hm].
  destruct (decide (k = key)) as [->|Hne].
  - apply lookup_delete_eq.
  - rewrite lookup_delete_ne; assumption.
Qed.

Lemma visit_expired entries (m : Store) key record :
  (key, record) ∈ entries -> expired now record = true ->
  foldl (visit now) m entries !! key = None.
Proof.
  revert m. induction entries as [|[k r] entries IH]; intros m Hin Hexp.
  - inversion Hin.
  - simpl. apply elem_of_cons in Hin as [Heq|Hin].
    + injection Heq as <- <-. rewrite Hexp.
      apply visit_absent, lookup_delete_eq.
    + apply IH; assumption.
Qed.

Lemma visit_kept entries (m : Store) key :
  (forall record, (key, record) ∈ entries -> expired now record = false) ->
  foldl (visit now) m entries !! key = m !! key.
Proof.
  revert m. induction entries as [|[k r] entries IH]; intros m Hall; simpl; [reflexivity|].
  rewrite IH.
  - destruct (expired now r) eqn:Hexp; [|reflexivity].
    destruct (decide (k = key)) as [->|Hne].
    + rewrite (Hall r) in Hexp; [discriminate | left].
    + rewrite lookup_delete_ne; [reflexivity | assumption].
  - intros record Hin. apply Hall. right. exact Hin.
Qed.

Lemma cleanup_lookup (s : Store) key :
  cleanup now s !! key
  = match s !! key with
    | Some record => if expired now record then None else Some record
    | None => None
    end.
Proof.
  unfold cleanup.
  destruct (s !! key) as [record|] eqn:Hs.
  - destruct (expired now record) eqn:Hexp.
    + apply visit_expired with record; [|exact Hexp].
      apply elem_of_map_to_list. exact Hs.
    + rewrite visit_kept; [exact Hs|].
      intros r Hin. apply elem_of_map_to_list in Hin.
      rewrite Hs in Hin. injection Hin as <-. exact Hexp.
  - apply visit_absent. exact Hs.
Qed.
End Reaper.

(** *** Runs of calls and reachable stores *)

Lemma run_reachable trace : forall t s,
  reachable t s -> clock_ok t trace -> reachable (last_time t trace) (run trace s).
Proof.
  induction trace as [|[now o] trace IH]; intros t s Hreach Hclock; simpl in *.
  - exact Hreach.
  - destruct Hclock as [Hle Hclock]. apply IH; [|exact Hclock].
    apply reachable_step with t; assumption.
Qed.

Lemma locked_store_reachable : reachable 0 locked_store.
Proof.
  apply (run_reachable (replicate 5 (0, OpRecordFailure "1.2.3.4")) 0 ∅).
  - apply reachable_init.
  - simpl. lia.
Qed.

Lemma locked_store_lookup :
  locked_store !! "1.2.3.4" = Some (mkRecord 5 0 0 true 1800000).
Proof. vm_compute. reflexivity. Qed.

(** *** The branches of [recordFailedAttempt] *)

Lemma recordFailedAttempt_absent identifier now (s : Store) :
  s !! identifier = None ->
  recordFailedAttempt identifier now s = start_window identifier now s.
Proof. intros Hs. unfold recordFailedAttempt. rewrite Hs. reflexivity. Qed.

Lemma recordFailedAttempt_stale identifier now (s : Store) record :
  s !! identifier = Some record ->
  blocked record && (blockedUntil record >? now) = false ->
  CONFIG.WINDOW_MS < now - firstAttempt record ->
  recordFailedAttempt identifier now s = start_window identifier now s.
Proof.
  intros Hs Hfree Hlate. unfold recordFailedAttempt. rewrite Hs, Hfree.
  cmp; [reflexivity | lia].
Qed.

Lemma recordFailedAttempt_active identifier now (s : Store) record :
  s !! identifier = Some record ->
  blocked record && (blockedUntil record >? now) = false ->
  now - firstAttempt record <= CONFIG.WINDOW_MS ->
  recordFailedAttempt identifier now s = count_failure identifier record now s.
Proof.
  intros Hs Hfree Hin. unfold recordFailedAttempt. rewrite Hs, Hfree.
  cmp; [lia | reflexivity].
Qed.

Lemma count_failure_below identifier record now (s : Store) :
  count record + 1 < CONFIG.MAX_ATTEMPTS ->
  count_failure identifier record now s
  = (counted (bump record now) now, <[identifier := bump record now]> s).
Proof. intros Hlt. unfold count_failure. simpl. cmp; [lia | reflexivity]. Qed.

Lemma count_failure_reached identifier record now (s : Store) :
  CONFIG.MAX_ATTEMPTS <= count record + 1 ->
  count_failure identifier record now s
  = (locked_out, <[identifier := lock (bump record now) now]> s).
Proof. intros Hge. unfold count_failure. simpl. cmp; [reflexivity | lia]. Qed.

(** *** Successive failures inside one window *)

Lemma bump_run_count times : forall record,
  count (foldl bump record times) = count record + Z.of_nat (length times).
Proof.
  induction times as [|now times IH]; intros record; simpl foldl; simpl length.
  - lia.
  - rewrite IH. simpl. lia.
Qed.

Lemma bump_run_frame times : forall record,
  firstAttempt (foldl bump record times) = firstAttempt record
  /\ blocked (foldl bump record times) = blocked record
  /\ blockedUntil (foldl bump record times) = blockedUntil record.
Proof.
  induction times as [|now times IH]; intros record; simpl foldl.
  - repeat split.
  - destruct (IH (bump record now)) as (H1 & H2 & H3). repeat split; assumption.
Qed.

(** Failures that stay below the threshold are all counted: the
    record ends with its counter raised by the number of calls. *)
Lemma recordFailures_within identifier times : forall (s : Store) record,
  s !! identifier = Some record ->
  blocked record = false ->
  Forall (fun now => now - firstAttempt record <= CONFIG.WINDOW_MS) times ->
  count record + Z.of_nat (length times) < CONFIG.MAX_ATTEMPTS ->
  recordFailures identifier times s
  = (counted_run record times, <[identifier := foldl bump record times]> s).
Proof.
  induction times as [|now times IH]; intros s record Hs Hfree Hin Hlt.
  - simpl. rewrite insert_id; [reflexivity | exact Hs].
  - apply Forall_cons in Hin as [Hnow Hin]. simpl length in Hlt.
    cbn [recordFailures].
    rewrite (recordFailedAttempt_active identifier now s record Hs);
      [|rewrite Hfree; reflexivity | exact Hnow].
    rewrite count_failure_below by lia.
    rewrite (IH (<[identifier := bump record now]> s) (bump record now)).
    + simpl. rewrite insert_insert_eq. reflexivity.
    + apply lookup_insert_eq.
    + exact Hfree.
    + exact Hin.
    + simpl. lia.
Qed.

(** The same from an identifier without a record. *)
Lemma recordFailures_from_absent identifier t1 rest (s : Store) :
  s !! identifier = None ->
  Forall (fun now => now - t1 <= CONFIG.WINDOW_MS) rest ->
  1 + Z.of_nat (length rest) < CONFIG.MAX_ATTEMPTS ->
  recordFailures identifier (t1 :: rest) s
  = ((start_window identifier t1 s).1 :: counted_run (fresh_record t1) rest,
     <[identifier := foldl bump (fresh_record t1) rest]> s).
Proof.
  intros Hs Hin Hlt. cbn [recordFailures].
  rewrite (recordFailedAttempt_absent identifier t1 s Hs). unfold start_window.
  rewrite (recordFailures_within identifier rest _ (fresh_record t1)).
  - simpl. rewrite insert_insert_eq. reflexivity.
  - apply lookup_insert_eq.
  - reflexivity.
  - exact Hin.
  - exact Hlt.
Qed.

Lemma recordFailures_app identifier times1 : forall times2 (s : Store),
  recordFailures identifier (times1 ++ times2) s
  = ((recordFailures identifier times1 s).1
       ++ (recordFailures identifier times2 (recordFailures identifier times1 s).2).1,
     (recordFailures identifier times2 (recordFailures identifier times1 s).2).2).
Proof.
  induction times1 as [|now times1 IH]; intros times2 s.
  - simpl. destruct (recordFailures identifier times2 s). reflexivity.
  - simpl. destruct (recordFailedAttempt identifier now s) as [res s1].
    rewrite IH. destruct (recordFailures identifier times1 s1) as [rs s2]. reflexivity.
Qed.

(** *** While the block lasts, checks deny and change nothing *)

Lemma checkRateLimit_blocked identifier now (s : Store) record :
  s !! identifier = Some record -> blocked record = true ->
  now < blockedUntil record ->
  checkRateLimit identifier now s = (still_blocked record now, s).
Proof.
  intros Hs Hb Hlt. unfold checkRateLimit. rewrite Hs, Hb. cmp; [reflexivity | lia].
Qed.

Lemma checks_blocked identifier times : forall (s : Store) record,
  s !! identifier = Some record -> blocked record = true ->
  Forall (fun now => now < blockedUntil record) times ->
  checks identifier times s = (map (still_blocked record) times, s).
Proof.
  induction times as [|now times IH]; intros s record Hs Hb Hall; [reflexivity|].
  apply Forall_cons in Hall as [Hnow Hall]. cbn [checks].
  rewrite (checkRateLimit_blocked identifier now s record Hs Hb Hnow).
  rewrite (IH s record Hs Hb Hall). reflexivity.
Qed.

(** *** The invariant of reachable stores *)

Lemma record_ok_later t now record :
  record_ok t record -> t <= now -> record_ok now record.
Proof. intros [Hfirst Hblock] Hle. split; [lia | exact Hblock]. Qed.

Lemma store_ok_later t now (s : Store) :
  store_ok t s -> t <= now -> store_ok now s.
Proof.
  intros Hok Hle key record Hs. apply record_ok_later with t; [|exact Hle].
  exact (Hok key record Hs).
Qed.

Lemma store_ok_delete t key (s : Store) : store_ok t s -> store_ok t (delete key s).
Proof. intros Hok. apply map_Forall_delete. exact Hok. Qed.

Lemma store_ok_insert t key record (s : Store) :
  record_ok t record -> store_ok t s -> store_ok t (<[key := record]> s).
Proof. intros Hr Hok. apply map_Forall_insert_2; assumption. Qed.

Lemma record_ok_fresh now : record_ok now (fresh_record now).
Proof. split; simpl; [lia | discriminate]. Qed.

Lemma record_ok_bump t now record :
  record_ok t record -> t <= now -> record_ok now (bump record now).
Proof. intros [Hfirst Hblock] Hle. split; simpl; [lia | exact Hblock]. Qed.

Lemma record_ok_lock now record :
  firstAttempt record <= now -> record_ok now (lock record now).
Proof. intros Hfirst. split; simpl; [exact Hfirst | intros _; lia]. Qed.

Lemma checkRateLimit_store_ok now identifier (s : Store) :
  store_ok now s -> store_ok now (checkRateLimit identifier now s).2.
Proof.
  intros Hok. unfold checkRateLimit.
  destruct (s !! identifier) as [r|]; [|exact Hok].
  destruct (blocked r); [|exact Hok].
  destruct (blockedUntil r >? now); [exact Hok|].
  apply store_ok_delete. exact Hok.
Qed.

Lemma recordFailedAttempt_store_ok t now identifier (s : Store) :
  store_ok t s -> t <= now -> store_ok now (recordFailedAttempt identifier now s).2.
Proof.
  intros Hok Hle. pose proof (store_ok_later t now s Hok Hle) as Hnow.
  unfold recordFailedAttempt, start_window, count_failure.
  destruct (s !! identifier) as [r|] eqn:Hs.
  - pose proof (Hok identifier r Hs) as Hr.
    destruct (blocked r && (blockedUntil r >? now)); [exact Hnow|].
    destruct (now - firstAttempt r >? CONFIG.WINDOW_MS).
    + apply store_ok_insert; [apply record_ok_fresh | exact Hnow].
    + pose proof (record_ok_bump t now r Hr Hle) as Hbump.
      destruct (count (bump r now) >=? CONFIG.MAX_ATTEMPTS); simpl.
      * apply store_ok_insert; [|exact Hnow].
        apply record_ok_lock. exact (proj1 Hbump).
      * apply store_ok_insert; [exact Hbump | exact Hnow].
  - apply store_ok_insert; [apply record_ok_fresh | exact Hnow].
Qed.

Lemma cleanup_store_ok now (s : Store) : store_ok now s -> store_ok now (cleanup now s).
Proof.
  intros Hok key record Hc. rewrite cleanup_lookup in Hc.
  destruct (s !! key) as [r|] eqn:Hs; [|discriminate Hc].
  destruct (expired now r); [discriminate Hc|].
  injection Hc as <-. exact (Hok key r Hs).
Qed.

Lemma exec_store_ok t now o (s : Store) :
  store_ok t s -> t <= now -> store_ok now (exec o now s).
Proof.
  intros Hok Hle. destruct o as [identifier|identifier|identifier|]; simpl.
  - apply checkRateLimit_store_ok. apply store_ok_later with t; assumption.
  - apply recordFailedAttempt_store_ok with t; assumption.
  - apply store_ok_delete. apply store_ok_later with t; assumption.
  - apply cleanup_store_ok. apply store_ok_later with t; assumption.
Qed.

Lemma reachable_store_ok t (s : Store) : reachable t s -> store_ok t s.
Proof.
  induction 1 as [t | t now s o Hreach IH Hle].
  - apply map_Forall_empty.
  - apply exec_store_ok with t; assumption.
Qed.

(** *** Two boundary observations *)

(** At the very millisecond a block ends the reaper still keeps the
    record (line 42 tests [blockedUntil < now]), while a check already
    treats it as lapsed (line 72 tests [blockedUntil > now]). *)
Example cleanup_at_block_end :
  cleanup 1800000 locked_store !! "1.2.3.4" = Some (mkRecord 5 0 0 true 1800000)
  /\ cleanup 1800001 locked_store !! "1.2.3.4" = None.
Proof. split; rewrite cleanup_lookup, locked_store_lookup; reflexivity. Qed.

(** The invariant of reachable stores leans on the clock: were a
    later call to read an earlier time than the call that opened the
    window, the block would end before [firstAttempt]. *)
Example clock_going_back :
  (recordFailures "1.2.3.4" [10000000; 0; 0; 0; 0] ∅).2 !! "1.2.3.4"
  = Some (mkRecord 5 10000000 0 true 1800000).
Proof. vm_compute. reflexivity. Qed.

(** X18.  Sequential form of "no lost update": [n] failures in one window,
    [1 <= n < MAX_ATTEMPTS], from an identifier without a record,
    leave a record whose count is [n]. *)
Lemma sequential_failures_counted identifier t1 rest (s : Store) :
  s !! identifier = None ->
  Forall (fun now => now - t1 <= CONFIG.WINDOW_MS) rest ->
  Z.of_nat (length (t1 :: rest)) < CONFIG.MAX_ATTEMPTS ->
  exists record,
    (recordFailures identifier (t1 :: rest) s).2 !! identifier = Some record
    /\ count record = Z.of_nat (length (t1 :: rest))
    /\ blocked record = false.
Proof.
  intros Hs Hin Hlt.
  rewrite (recordFailures_from_absent identifier t1 rest s Hs Hin)
    by (cbn [length] in Hlt; lia).
  exists (foldl bump (fresh_record t1) rest). cbn [snd].
  split; [apply lookup_insert_eq|]. split.
  - rewrite bump_run_count. cbn [length fresh_record count]. lia.
  - apply bump_run_frame.
Qed.

(** ** The claims *)

(** C1 (as stated, refuted).  [checkRateLimit] is not a pure read: on
    the locked-out store, a check at the very millisecond the block
    ends removes the record of the identifier. *)
Lemma checkRateLimit_mutates :
  (checkRateLimit "1.2.3.4" 1800000 locked_store).2 <> locked_store.
Proof.
  intros Heq. apply (f_equal (fun s : Store => s !! "1.2.3.4")) in Heq.
  rewrite locked_store_lookup in Heq. vm_compute in Heq. discriminate Heq.
Qed.

(** C1 (amended).  [checkRateLimit] leaves the store as it is, except
    when the record of the identifier is blocked and its [blockedUntil]
    is at or before [now]: then it deletes that one record and changes
    nothing else. *)
Theorem checkRateLimit_store identifier now (s : Store) :
  (checkRateLimit identifier now s).2
  = if block_lapsed identifier now s then delete identifier s else s.
Proof.
  unfold checkRateLimit, block_lapsed.
  destruct (s !! identifier) as [r|]; [|reflexivity].
  destruct (blocked r); simpl; [|reflexivity].
  cmp; try reflexivity; lia.
Qed.

(** C3.  For an identifier without a record, and for one whose record
    is not blocked and has [now - firstAttempt > WINDOW_MS], the check
    answers allowed, remaining 5, resetIn 900 s (and keeps the store). *)
Theorem checkRateLimit_fresh identifier now (s : Store) :
  s !! identifier = None
  \/ (exists record, s !! identifier = Some record
        /\ blocked record = false
        /\ CONFIG.WINDOW_MS < now - firstAttempt record) ->
  checkRateLimit identifier now s = (allow_fresh, s)
  /\ remaining allow_fresh = CONFIG.MAX_ATTEMPTS
  /\ resetIn allow_fresh * 1000 = CONFIG.WINDOW_MS.
Proof.
  intros Hcase. split; [|split; reflexivity].
  unfold checkRateLimit.
  destruct Hcase as [Hnone | (record & Hsome & Hfree & Hlate)].
  - rewrite Hnone. reflexivity.
  - rewrite Hsome, Hfree. rewrite check_window_elapsed; [reflexivity | exact Hlate].
Qed.

Lemma checkRateLimit_fresh_witness :
  checkRateLimit "5.6.7.8" 1000 ∅ = (allow_fresh, ∅)
  /\ remaining allow_fresh = CONFIG.MAX_ATTEMPTS
  /\ resetIn allow_fresh * 1000 = CONFIG.WINDOW_MS.
Proof. apply (checkRateLimit_fresh "5.6.7.8" 1000 ∅). left. reflexivity. Defined.

(** C5.  [clearRateLimit] is total, leaves no record for the
    identifier whatever the store held, and the check that follows
    answers allowed with remaining 5. *)
Theorem clear_then_check identifier now (s : Store) :
  clearRateLimit identifier s !! identifier = None
  /\ (checkRateLimit identifier now (clearRateLimit identifier s)).1 = allow_fresh
  /\ success allow_fresh = true
  /\ remaining allow_fresh = CONFIG.MAX_ATTEMPTS.
Proof.
  assert (Hgone : clearRateLimit identifier s !! identifier = None)
    by apply lookup_delete_eq.
  split; [exact Hgone|]. split; [|split; reflexivity].
  unfold checkRateLimit. rewrite Hgone. reflexivity.
Qed.

(** C8.  One pass of the reaper at time [now] keeps exactly the
    records that are not evictable: an entry is removed when it is
    blocked and [blockedUntil < now], or not blocked and
    [now - firstAttempt > WINDOW_MS]; every other entry stays as it was. *)
Theorem cleanup_filter now (s : Store) :
  cleanup now s = filter (fun entry => ~ reapable now entry.2) s.
Proof.
  apply map_eq. intros key. rewrite cleanup_lookup, map_lookup_filter.
  destruct (s !! key) as [record|]; simpl; [|reflexivity].
  destruct (expired now record) eqn:Hexp.
  - apply expired_reapable in Hexp. rewrite option_guard_False; [reflexivity|].
    intros Hnot. apply Hnot. exact Hexp.
  - rewrite option_guard_True; [reflexivity|].
    intros Hreap. apply expired_reapable in Hreap. congruence.
Qed.

(** C10.  Every decision of [checkRateLimit] and of
    [recordFailedAttempt] has the expected shape: remaining is not
    negative, an allowed decision is not blocked, and a blocked
    decision is denied with remaining 0. *)
Theorem decisions_well_shaped identifier now (s : Store) :
  decision_shape (checkRateLimit identifier now s).1
  /\ decision_shape (recordFailedAttempt identifier now s).1.
Proof.
  unfold decision_shape, checkRateLimit, recordFailedAttempt, check_window,
    count_failure, start_window, still_blocked, counted, locked_out.
  pose proof max_value as Hmax.
  split.
  - destruct (s !! identifier) as [r|]; [destruct (blocked r)|]; simpl;
      cmp; simpl; repeat split; intros; try discriminate; try reflexivity; lia.
  - destruct (s !! identifier) as [r|]; [destruct (blocked r)|]; simpl;
      cmp; simpl; repeat split; intros; try discriminate; try reflexivity; lia.
Qed.

(** C2.  From an identifier without a record, [MAX_ATTEMPTS] (5)
    failures whose clock readings all lie in the window opened by the
    first one end with a blocked decision; the record is then blocked,
    and every later check made strictly before its [blockedUntil] is
    denied. *)
Theorem lock_out_after_max identifier t1 rest (s : Store) :
  s !! identifier = None ->
  Z.of_nat (length (t1 :: rest)) = CONFIG.MAX_ATTEMPTS ->
  Forall (fun now => now - t1 <= CONFIG.WINDOW_MS) rest ->
  let out := recordFailures identifier (t1 :: rest) s in
  (exists res, last out.1 = Some res /\ res_blocked res = true)
  /\ exists record,
       out.2 !! identifier = Some record
       /\ blocked record = true
       /\ forall later,
            Forall (fun now => now < blockedUntil record) later ->
            Forall (fun res => success res = false) (checks identifier later out.2).1.
Proof.
  intros Hs Hlen Hin.
  rewrite max_value in Hlen.
  destruct rest as [|t2 [|t3 [|t4 [|t5 [|]]]]];
    try (exfalso; cbn [length] in Hlen; lia). clear Hlen.
  assert (Hfront : Forall (fun now => now - t1 <= CONFIG.WINDOW_MS) [t2; t3; t4]).
  { repeat (apply Forall_cons in Hin as [? Hin]). repeat constructor; assumption. }
  assert (Hlast : t5 - t1 <= CONFIG.WINDOW_MS).
  { repeat (apply Forall_cons in Hin as [? Hin]). assumption. }
  change (t1 :: [t2; t3; t4; t5]) with ((t1 :: [t2; t3; t4]) ++ [t5]).
  intros out. subst out. rewrite recordFailures_app.
  rewrite (recordFailures_from_absent identifier t1 [t2; t3; t4] s Hs Hfront)
    by (simpl; rewrite max_value; lia).
  cbn [fst snd recordFailures foldl].
  set (r4 := bump (bump (bump (fresh_record t1) t2) t3) t4).
  rewrite (recordFailedAttempt_active identifier t5 _ r4);
    [| apply lookup_insert_eq | reflexivity | exact Hlast].
  rewrite count_failure_reached by (simpl; rewrite max_value; lia).
  rewrite insert_insert_eq. cbn [fst snd].
  split.
  - exists locked_out. split; reflexivity.
  - exists (lock (bump r4 t5) t5). split; [apply lookup_insert_eq|].
    split; [reflexivity|].
    intros later Hlater.
    rewrite (checks_blocked identifier later _ (lock (bump r4 t5) t5));
      [| apply lookup_insert_eq | reflexivity | exact Hlater].
    cbn [fst]. apply Forall_forall. intros res Hres.
    apply list_elem_of_fmap in Hres as (now & -> & _). reflexivity.
Qed.

Lemma lock_out_after_max_witness :
  let out := recordFailures "1.2.3.4" [0; 10; 20; 30; 40] ∅ in
  (exists res, last out.1 = Some res /\ res_blocked res = true)
  /\ exists record,
       out.2 !! "1.2.3.4" = Some record
       /\ blocked record = true
       /\ forall later,
            Forall (fun now => now < blockedUntil record) later ->
            Forall (fun res => success res = false) (checks "1.2.3.4" later out.2).1.
Proof.
  apply (lock_out_after_max "1.2.3.4" 0 [10; 20; 30; 40] ∅).
  - reflexivity.
  - reflexivity.
  - repeat constructor; rewrite window_value; lia.
Defined.

(** C6.  A failure that is counted in the running window without
    reaching the threshold is answered allowed, with remaining =
    MAX_ATTEMPTS - count (the count after the increment) and a message
    exactly when remaining <= 2.  In particular four failures in one
    window, from an identifier without a record, are answered with
    remaining 4, 3, 2, 1 and a message on the third and fourth only. *)
Theorem counted_failures identifier :
  (forall now (s : Store) record,
     s !! identifier = Some record ->
     blocked record && (blockedUntil record >? now) = false ->
     now - firstAttempt record <= CONFIG.WINDOW_MS ->
     count record + 1 < CONFIG.MAX_ATTEMPTS ->
     let out := recordFailedAttempt identifier now s in
     success out.1 = true
     /\ remaining out.1 = CONFIG.MAX_ATTEMPTS - (count record + 1)
     /\ (is_Some (message out.1) <-> remaining out.1 <= 2)
     /\ (exists stored, out.2 !! identifier = Some stored
           /\ count stored = count record + 1))
  /\ (forall t1 t2 t3 t4 (s : Store),
        s !! identifier = None ->
        t2 - t1 <= CONFIG.WINDOW_MS ->
        t3 - t1 <= CONFIG.WINDOW_MS ->
        t4 - t1 <= CONFIG.WINDOW_MS ->
        let rs := (recordFailures identifier [t1; t2; t3; t4] s).1 in
        map success rs = [true; true; true; true]
        /\ map remaining rs = [4; 3; 2; 1]
        /\ map has_message rs = [false; false; true; true]).
Proof.
  split.
  - intros now s record Hs Hfree Hin Hlt out. subst out.
    rewrite (recordFailedAttempt_active identifier now s record Hs Hfree Hin).
    rewrite count_failure_below by exact Hlt.
    cbn [fst snd counted bump count success remaining message].
    split; [reflexivity|]. split; [reflexivity|]. split.
    + cmp; split; intros Hm; try lia; try (eexists; reflexivity).
      destruct Hm as [m Hm]. discriminate Hm.
    + exists (bump record now). split; [apply lookup_insert_eq | reflexivity].
  - intros t1 t2 t3 t4 s Hs H2 H3 H4 rs. subst rs.
    rewrite (recordFailures_from_absent identifier t1 [t2; t3; t4] s Hs)
      by (repeat constructor; try assumption; simpl; rewrite max_value; lia).
    repeat split.
Qed.

Lemma counted_failures_witness :
  (let out := recordFailedAttempt "1.2.3.4" 20
                (<["1.2.3.4" := mkRecord 2 0 10 false 0]> ∅) in
   success out.1 = true
   /\ remaining out.1 = CONFIG.MAX_ATTEMPTS - (2 + 1)
   /\ (is_Some (message out.1) <-> remaining out.1 <= 2)
   /\ (exists stored, out.2 !! "1.2.3.4" = Some stored /\ count stored = 2 + 1))
  /\ (let rs := (recordFailures "1.2.3.4" [0; 10; 20; 30] ∅).1 in
      map success rs = [true; true; true; true]
      /\ map remaining rs = [4; 3; 2; 1]
      /\ map has_message rs = [false; false; true; true]).
Proof.
  split.
  - apply (proj1 (counted_failures "1.2.3.4") 20
             (<["1.2.3.4" := mkRecord 2 0 10 false 0]> ∅) (mkRecord 2 0 10 false 0)).
    + reflexivity.
    + reflexivity.
    + rewrite window_value. simpl. lia.
    + rewrite max_value. simpl. lia.
  - apply (proj2 (counted_failures "1.2.3.4") 0 10 20 30 ∅).
    + reflexivity.
    + rewrite window_value. lia.
    + rewrite window_value. lia.
    + rewrite window_value. lia.
Defined.

(** C7.  In every store reached from the empty one through checks,
    recorded failures, clears and reaper passes (the clock never going
    back), a blocked record has [blockedUntil] strictly after
    [firstAttempt]. *)
Theorem blocked_after_first t (s : Store) :
  reachable t s ->
  forall identifier record,
    s !! identifier = Some record ->
    blocked record = true ->
    firstAttempt record < blockedUntil record.
Proof.
  intros Hreach identifier record Hs Hb.
  destruct (reachable_store_ok t s Hreach identifier record Hs) as [_ Hblock].
  specialize (Hblock Hb). rewrite block_value in Hblock. lia.
Qed.

Lemma blocked_after_first_witness :
  firstAttempt (mkRecord 5 0 0 true 1800000) < blockedUntil (mkRecord 5 0 0 true 1800000).
Proof.
  apply (blocked_after_first 0 locked_store locked_store_reachable "1.2.3.4").
  - exact locked_store_lookup.
  - reflexivity.
Defined.

(** C4.  In a reachable store, once the clock is at or past the
    [blockedUntil] of a blocked record, a check of its identifier is
    answered allowed with remaining 5, and a recorded failure does
    what it does for an identifier without a record: it stores a new
    record with count 1 and answers allowed with remaining 4 -
    whether or not a check ran first. *)
Theorem block_lapse_resets t (s : Store) identifier record now :
  reachable t s ->
  s !! identifier = Some record ->
  blocked record = true ->
  blockedUntil record <= now ->
  (checkRateLimit identifier now s).1 = allow_fresh
  /\ remaining allow_fresh = CONFIG.MAX_ATTEMPTS
  /\ recordFailedAttempt identifier now s
     = recordFailedAttempt identifier now (clearRateLimit identifier s)
  /\ recordFailedAttempt identifier now s
     = (mkResult true (CONFIG.MAX_ATTEMPTS - 1) 900 false None,
        <[identifier := fresh_record now]> s)
  /\ forall now',
       recordFailedAttempt identifier now' (checkRateLimit identifier now s).2
       = (mkResult true (CONFIG.MAX_ATTEMPTS - 1) 900 false None,
          <[identifier := fresh_record now']> s).
Proof.
  intros Hreach Hs Hb Hpast.
  destruct (reachable_store_ok t s Hreach identifier record Hs) as [_ Hblock].
  specialize (Hblock Hb). rewrite block_value in Hblock.
  assert (Hfree : blocked record && (blockedUntil record >? now) = false).
  { rewrite Hb. simpl. cmp; [lia | reflexivity]. }
  assert (Hstale : recordFailedAttempt identifier now s
                   = start_window identifier now s).
  { apply recordFailedAttempt_stale with record; [assumption .. |].
    rewrite window_value. lia. }
  assert (Hcheck : checkRateLimit identifier now s
                   = (allow_fresh, delete identifier s)).
  { unfold checkRateLimit. rewrite Hs, Hb. cmp; [lia | reflexivity]. }
  split; [rewrite Hcheck; reflexivity|]. split; [reflexivity|]. split; [|split].
  - rewrite Hstale. unfold clearRateLimit.
    rewrite recordFailedAttempt_absent by apply lookup_delete_eq.
    unfold start_window. rewrite insert_delete_eq. reflexivity.
  - rewrite Hstale. reflexivity.
  - intros now'. rewrite Hcheck. cbn [snd].
    rewrite recordFailedAttempt_absent by apply lookup_delete_eq.
    unfold start_window. rewrite insert_delete_eq. reflexivity.
Qed.

Lemma block_lapse_resets_witness :
  (checkRateLimit "1.2.3.4" 1800000 locked_store).1 = allow_fresh
  /\ remaining allow_fresh = CONFIG.MAX_ATTEMPTS
  /\ recordFailedAttempt "1.2.3.4" 1800000 locked_store
     = recordFailedAttempt "1.2.3.4" 1800000 (clearRateLimit "1.2.3.4" locked_store)
  /\ recordFailedAttempt "1.2.3.4" 1800000 locked_store
     = (mkResult true (CONFIG.MAX_ATTEMPTS - 1) 900 false None,
        <["1.2.3.4" := fresh_record 1800000]> locked_store)
  /\ forall now',
       recordFailedAttempt "1.2.3.4" now'
         (checkRateLimit "1.2.3.4" 1800000 locked_store).2
       = (mkResult true (CONFIG.MAX_ATTEMPTS - 1) 900 false None,
          <["1.2.3.4" := fresh_record now']> locked_store).
Proof.
  apply (block_lapse_resets 0 locked_store "1.2.3.4" (mkRecord 5 0 0 true 1800000)).
  - exact locked_store_reachable.
  - exact locked_store_lookup.
  - reflexivity.
  - simpl. lia.
Defined.

(** ** Further properties of the code *)

(** *** Identifiers do not interfere *)

(** The decision of both operations, and the record they leave for
    the identifier, depend on the identifier's own record only. *)
Lemma decisions_local identifier now (s s' : Store) :
  s !! identifier = s' !! identifier ->
  (checkRateLimit identifier now s).1 = (checkRateLimit identifier now s').1
  /\ (recordFailedAttempt identifier now s).1 = (recordFailedAttempt identifier now s').1.
Proof.
  intros Heq. unfold checkRateLimit, recordFailedAttempt, start_window, count_failure.
  rewrite <- Heq. destruct (s !! identifier) as [r|]; [|split; reflexivity].
  split.
  - destruct (blocked r); [destruct (blockedUntil r >? now)|]; reflexivity.
  - destruct (blocked r && (blockedUntil r >? now)); [reflexivity|].
    destruct (now - firstAttempt r >? CONFIG.WINDOW_MS); [reflexivity|].
    destruct (count (bump r now) >=? CONFIG.MAX_ATTEMPTS); reflexivity.
Qed.

Lemma checkRateLimit_frame identifier other now (s : Store) :
  other <> identifier -> (checkRateLimit identifier now s).2 !! other = s !! other.
Proof.
  intros Hne. unfold checkRateLimit.
  destruct (s !! identifier) as [r|]; [|reflexivity].
  destruct (blocked r); [|reflexivity].
  destruct (blockedUntil r >? now); [reflexivity|].
  apply lookup_delete_ne. congruence.
Qed.

Lemma recordFailedAttempt_frame identifier other now (s : Store) :
  other <> identifier -> (recordFailedAttempt identifier now s).2 !! other = s !! other.
Proof.
  intros Hne. unfold recordFailedAttempt, start_window, count_failure.
  destruct (s !! identifier) as [r|].
  - destruct (blocked r && (blockedUntil r >? now)); [reflexivity|].
    destruct (now - firstAttempt r >? CONFIG.WINDOW_MS).
    + apply lookup_insert_ne. congruence.
    + destruct (count (bump r now) >=? CONFIG.MAX_ATTEMPTS);
        apply lookup_insert_ne; congruence.
  - apply lookup_insert_ne. congruence.
Qed.

(** X1.  A check, a recorded failure or a clear for one identifier
    leaves the record of every other identifier exactly as it was. *)
Theorem other_identifiers_untouched identifier other now (s : Store) :
  other <> identifier ->
  (checkRateLimit identifier now s).2 !! other = s !! other
  /\ (recordFailedAttempt identifier now s).2 !! other = s !! other
  /\ clearRateLimit identifier s !! other = s !! other.
Proof.
  intros Hne. split; [|split].
  - apply checkRateLimit_frame. exact Hne.
  - apply recordFailedAttempt_frame. exact Hne.
  - apply lookup_delete_ne. congruence.
Qed.

Lemma other_identifiers_untouched_witness :
  (checkRateLimit "1.2.3.4" 1800000 locked_store).2 !! "5.6.7.8" = locked_store !! "5.6.7.8"
  /\ (recordFailedAttempt "1.2.3.4" 1800000 locked_store).2 !! "5.6.7.8"
     = locked_store !! "5.6.7.8"
  /\ clearRateLimit "1.2.3.4" locked_store !! "5.6.7.8" = locked_store !! "5.6.7.8".
Proof.
  apply (other_identifiers_untouched "1.2.3.4" "5.6.7.8" 1800000 locked_store).
  discriminate.
Defined.

(** X2.  Whatever is done for another identifier (check, recorded
    failure, clear), the decisions for this one stay the same. *)
Theorem decisions_ignore_other_identifiers identifier other (o : op) t now (s : Store) :
  other <> identifier ->
  o = OpCheck other \/ o = OpRecordFailure other \/ o = OpClear other ->
  (checkRateLimit identifier now (exec o t s)).1 = (checkRateLimit identifier now s).1
  /\ (recordFailedAttempt identifier now (exec o t s)).1
     = (recordFailedAttempt identifier now s).1.
Proof.
  intros Hne Ho. apply decisions_local.
  destruct Ho as [-> | [-> | ->]]; simpl.
  - apply checkRateLimit_frame. congruence.
  - apply recordFailedAttempt_frame. congruence.
  - apply lookup_delete_ne. exact Hne.
Qed.

Lemma decisions_ignore_other_identifiers_witness :
  (checkRateLimit "1.2.3.4" 7 (exec (OpRecordFailure "5.6.7.8") 5 locked_store)).1
  = (checkRateLimit "1.2.3.4" 7 locked_store).1
  /\ (recordFailedAttempt "1.2.3.4" 7 (exec (OpRecordFailure "5.6.7.8") 5 locked_store)).1
     = (recordFailedAttempt "1.2.3.4" 7 locked_store).1.
Proof.
  apply (decisions_ignore_other_identifiers "1.2.3.4" "5.6.7.8").
  - discriminate.
  - right. left. reflexivity.
Defined.

(** *** During a block *)

(** X3.  While a block lasts, a recorded failure is neither counted
    nor does it extend the block: the store stays as it is, and the
    answer is the one a check gives, with at least one second to wait. *)
Theorem failure_during_block identifier now (s : Store) record :
  s !! identifier = Some record ->
  blocked record = true ->
  now < blockedUntil record ->
  recordFailedAttempt identifier now s = (still_blocked record now, s)
  /\ checkRateLimit identifier now s = (still_blocked record now, s)
  /\ 1 <= resetIn (still_blocked record now).
Proof.
  intros Hs Hb Hlt. split; [|split].
  - unfold recordFailedAttempt. rewrite Hs, Hb.
    destruct (Z.gtb_spec (blockedUntil record) now); [reflexivity | lia].
  - apply checkRateLimit_blocked; assumption.
  - unfold still_blocked, ceil_div. simpl.
    assert ((- (blockedUntil record - now)) / 1000 < 0); [|lia].
    apply Z.div_lt_upper_bound; lia.
Qed.

Lemma failure_during_block_witness :
  recordFailedAttempt "1.2.3.4" 5 locked_store
  = (still_blocked (mkRecord 5 0 0 true 1800000) 5, locked_store)
  /\ checkRateLimit "1.2.3.4" 5 locked_store
     = (still_blocked (mkRecord 5 0 0 true 1800000) 5, locked_store)
  /\ 1 <= resetIn (still_blocked (mkRecord 5 0 0 true 1800000) 5).
Proof.
  apply (failure_during_block "1.2.3.4" 5 locked_store).
  - exact locked_store_lookup.
  - reflexivity.
  - simpl. lia.
Defined.

(** *** What a check promises, the next failure delivers *)

(** X4.  After an allowing check, a failure recorded at a clock
    reading that is not earlier leaves either one attempt less than the
    check announced, or [MAX_ATTEMPTS - 1] when it opened a new window;
    at the same clock reading it is one less.  The failure is answered
    blocked only when the check announced one remaining attempt. *)
Theorem check_announces_failure identifier now now' (s : Store) :
  now <= now' ->
  success (checkRateLimit identifier now s).1 = true ->
  let c := checkRateLimit identifier now s in
  let f := recordFailedAttempt identifier now' c.2 in
  (remaining f.1 = remaining c.1 - 1
   \/ (remaining f.1 = CONFIG.MAX_ATTEMPTS - 1 /\ res_blocked f.1 = false))
  /\ (now' = now -> remaining f.1 = remaining c.1 - 1)
  /\ (res_blocked f.1 = true -> remaining c.1 = 1).
Proof.
  intros Hle. pose proof max_value as Hmax.
  unfold checkRateLimit.
  destruct (s !! identifier) as [r|] eqn:Hs.
  - destruct (blocked r) eqn:Hb.
    + destruct (Z.gtb_spec (blockedUntil r) now); [discriminate|].
      intros _. cbn [fst snd].
      rewrite recordFailedAttempt_absent by apply lookup_delete_eq.
      unfold start_window, check_window. cbn [fst remaining res_blocked].
      repeat split; try lia; try discriminate.
    + cbn [fst snd]. unfold recordFailedAttempt, start_window, count_failure,
        check_window, counted, locked_out.
      rewrite Hs, Hb. simpl andb. cbv iota.
      cmp; simpl; intros Hok; try discriminate Hok;
        unfold bump in *; cbn [count] in *;
        repeat split; intros; subst; try discriminate; try lia;
        try (left; lia); try (right; split; [lia | reflexivity]).
  - intros _. cbn [fst snd].
    rewrite (recordFailedAttempt_absent identifier now' s Hs).
    unfold start_window, check_window. cbn [fst remaining res_blocked].
    repeat split; try lia; try discriminate.
Qed.

Lemma check_announces_failure_witness :
  let c := checkRateLimit "5.6.7.8" 3 locked_store in
  let f := recordFailedAttempt "5.6.7.8" 4 c.2 in
  (remaining f.1 = remaining c.1 - 1
   \/ (remaining f.1 = CONFIG.MAX_ATTEMPTS - 1 /\ res_blocked f.1 = false))
  /\ (4 = 3 -> remaining f.1 = remaining c.1 - 1)
  /\ (res_blocked f.1 = true -> remaining c.1 = 1).
Proof.
  apply (check_announces_failure "5.6.7.8" 3 4 locked_store).
  - lia.
  - reflexivity.
Defined.

(** *** The reaper and the decisions *)

Lemma expired_later now now' record :
  now <= now' -> expired now record = true -> expired now' record = true.
Proof.
  intros Hle. unfold expired. destruct (blocked record); simpl; cmp;
    intros; try reflexivity; try discriminate; lia.
Qed.

Lemma recordFailedAttempt_local_record identifier now (s s' : Store) :
  s !! identifier = s' !! identifier ->
  (recordFailedAttempt identifier now s).2 !! identifier
  = (recordFailedAttempt identifier now s').2 !! identifier.
Proof.
  intros Heq. unfold recordFailedAttempt, start_window, count_failure.
  rewrite <- Heq. destruct (s !! identifier) as [r|] eqn:Hs.
  - destruct (blocked r && (blockedUntil r >? now)); [cbn [snd]; congruence|].
    destruct (now - firstAttempt r >? CONFIG.WINDOW_MS).
    + cbn [snd]. rewrite !lookup_insert_eq. reflexivity.
    + destruct (count (bump r now) >=? CONFIG.MAX_ATTEMPTS);
        cbn [snd]; rewrite !lookup_insert_eq; reflexivity.
  - cbn [snd]. rewrite !lookup_insert_eq. reflexivity.
Qed.

(** X5.  A reaper pass only removes records, and a pass followed by a
    later pass leaves what the later pass alone leaves; in particular
    a second pass at the same clock reading changes nothing. *)
Theorem cleanup_twice t1 t2 (s : Store) :
  t1 <= t2 ->
  cleanup t1 s ⊆ s
  /\ cleanup t2 (cleanup t1 s) = cleanup t2 s.
Proof.
  intros Hle. split.
  - apply map_subseteq_spec. intros key record Hc. rewrite cleanup_lookup in Hc.
    destruct (s !! key) as [r|]; [|discriminate Hc].
    destruct (expired t1 r); [discriminate Hc | exact Hc].
  - apply map_eq. intros key. rewrite !cleanup_lookup.
    destruct (s !! key) as [r|]; [|reflexivity].
    destruct (expired t1 r) eqn:H1; [|reflexivity].
    rewrite (expired_later t1 t2 r Hle H1). reflexivity.
Qed.

Lemma cleanup_twice_witness :
  cleanup 1800001 locked_store ⊆ locked_store
  /\ cleanup 1800001 (cleanup 1800001 locked_store) = cleanup 1800001 locked_store.
Proof. apply (cleanup_twice 1800001 1800001 locked_store). lia. Defined.

(** X6.  For any store, a reaper pass never changes what a check at
    the same or a later clock reading answers. *)
Theorem cleanup_keeps_check identifier now now' (s : Store) :
  now <= now' ->
  (checkRateLimit identifier now' (cleanup now s)).1
  = (checkRateLimit identifier now' s).1.
Proof.
  intros Hle.
  destruct (s !! identifier) as [r|] eqn:Hs.
  - destruct (expired now r) eqn:Hexp.
    + pose proof (expired_later now now' r Hle Hexp) as Hlater.
      unfold checkRateLimit. rewrite cleanup_lookup, Hs, Hexp.
      unfold expired in Hlater. cbn [fst check_window].
      destruct (blocked r); simpl in Hlater |- *.
      * destruct (Z.ltb_spec (blockedUntil r) now'); [|discriminate Hlater].
        destruct (Z.gtb_spec (blockedUntil r) now'); [lia | reflexivity].
      * destruct (now' - firstAttempt r >? CONFIG.WINDOW_MS);
          [reflexivity | discriminate Hlater].
    + apply decisions_local. rewrite cleanup_lookup, Hs, Hexp. reflexivity.
  - apply decisions_local. rewrite cleanup_lookup, Hs. reflexivity.
Qed.

Lemma cleanup_keeps_check_witness :
  (checkRateLimit "1.2.3.4" 1800002 (cleanup 1800001 locked_store)).1
  = (checkRateLimit "1.2.3.4" 1800002 locked_store).1.
Proof. apply (cleanup_keeps_check "1.2.3.4" 1800001 1800002 locked_store). lia. Defined.

(** X7.  In a reachable store, a reaper pass changes neither the
    answer of a failure recorded at the same or a later clock reading,
    nor the record that the failure leaves for its identifier. *)
Theorem cleanup_keeps_failure t identifier now now' (s : Store) :
  reachable t s ->
  now <= now' ->
  (recordFailedAttempt identifier now' (cleanup now s)).1
  = (recordFailedAttempt identifier now' s).1
  /\ (recordFailedAttempt identifier now' (cleanup now s)).2 !! identifier
     = (recordFailedAttempt identifier now' s).2 !! identifier.
Proof.
  intros Hreach Hle.
  assert (Hsame : cleanup now s !! identifier = s !! identifier
                  -> (recordFailedAttempt identifier now' (cleanup now s)).1
                     = (recordFailedAttempt identifier now' s).1
                     /\ (recordFailedAttempt identifier now' (cleanup now s)).2 !! identifier
                        = (recordFailedAttempt identifier now' s).2 !! identifier).
  { intros Heq. split.
    - apply decisions_local. exact Heq.
    - apply recordFailedAttempt_local_record. exact Heq. }
  destruct (s !! identifier) as [r|] eqn:Hs.
  - destruct (expired now r) eqn:Hexp.
    + clear Hsame.
      destruct (reachable_store_ok t s Hreach identifier r Hs) as [_ Hblock].
      rewrite block_value in Hblock.
      rewrite recordFailedAttempt_absent
        by (rewrite cleanup_lookup, Hs, Hexp; reflexivity).
      rewrite (recordFailedAttempt_stale identifier now' s r Hs).
      * unfold start_window. cbn [fst snd]. rewrite !lookup_insert_eq. split; reflexivity.
      * unfold expired in Hexp. destruct (blocked r); simpl in Hexp |- *; [|reflexivity].
        destruct (Z.ltb_spec (blockedUntil r) now); [|discriminate Hexp].
        destruct (Z.gtb_spec (blockedUntil r) now'); [lia | reflexivity].
      * rewrite window_value. unfold expired in Hexp.
        destruct (blocked r); simpl in Hexp.
        -- specialize (Hblock eq_refl).
           destruct (Z.ltb_spec (blockedUntil r) now); [lia | discriminate Hexp].
        -- destruct (Z.gtb_spec (now - firstAttempt r) CONFIG.WINDOW_MS);
             [rewrite window_value in *; lia | discriminate Hexp].
    + apply Hsame. rewrite cleanup_lookup, Hs, Hexp. reflexivity.
  - apply Hsame. rewrite cleanup_lookup, Hs. reflexivity.
Qed.

Lemma cleanup_keeps_failure_witness :
  (recordFailedAttempt "1.2.3.4" 1800002 (cleanup 1800001 locked_store)).1
  = (recordFailedAttempt "1.2.3.4" 1800002 locked_store).1
  /\ (recordFailedAttempt "1.2.3.4" 1800002 (cleanup 1800001 locked_store)).2 !! "1.2.3.4"
     = (recordFailedAttempt "1.2.3.4" 1800002 locked_store).2 !! "1.2.3.4".
Proof.
  apply (cleanup_keeps_failure 0 "1.2.3.4" 1800001 1800002 locked_store).
  - exact locked_store_reachable.
  - lia.
Defined.

(** *** The shape of the records of a reachable store *)

Lemma record_inv_later t now record :
  record_inv t record -> t <= now -> record_inv now record.
Proof.
  intros (H1 & H2 & H3 & H4 & H5) Hle. repeat split; try assumption; try lia.
  - apply H4. assumption.
  - apply H4. assumption.
  - apply H4. assumption.
  - apply H5. assumption.
  - apply H5. assumption.
Qed.

Lemma store_inv_later t now (s : Store) :
  store_inv t s -> t <= now -> store_inv now s.
Proof.
  intros Hinv Hle key record Hs. apply record_inv_later with t; [|exact Hle].
  exact (Hinv key record Hs).
Qed.

Lemma record_inv_fresh now : record_inv now (fresh_record now).
Proof.
  pose proof max_value. pose proof window_value.
  unfold record_inv. simpl. repeat split; try lia; discriminate.
Qed.

Lemma record_inv_counted t now record :
  record_inv t record -> t <= now ->
  blocked record && (blockedUntil record >? now) = false ->
  now - firstAttempt record <= CONFIG.WINDOW_MS ->
  blocked record = false
  /\ record_inv now
       (if count (bump record now) >=? CONFIG.MAX_ATTEMPTS
        then lock (bump record now) now else bump record now).
Proof.
  intros (H1 & H2 & H3 & H4 & H5) Hle Hfree Hin.
  pose proof max_value as Hmax. pose proof window_value as Hw.
  pose proof block_value as Hb.
  destruct (blocked record) eqn:Hblocked.
  - exfalso. destruct (H5 eq_refl) as [_ Huntil].
    simpl in Hfree. destruct (Z.gtb_spec (blockedUntil record) now); [discriminate|]. lia.
  - split; [reflexivity|]. destruct (H4 eq_refl) as [Hcount Hzero].
    unfold record_inv.
    destruct (Z.geb_spec (count (bump record now)) CONFIG.MAX_ATTEMPTS) as [Hge|Hlt];
      simpl in *; rewrite ?Hblocked;
      repeat split; intros; try discriminate; try lia.
Qed.

Lemma recordFailedAttempt_store_inv t now identifier (s : Store) :
  store_inv t s -> t <= now -> store_inv now (recordFailedAttempt identifier now s).2.
Proof.
  intros Hinv Hle. pose proof (store_inv_later t now s Hinv Hle) as Hnow.
  unfold recordFailedAttempt, start_window, count_failure.
  destruct (s !! identifier) as [r|] eqn:Hs.
  - pose proof (Hinv identifier r Hs) as Hr.
    destruct (blocked r && (blockedUntil r >? now)) eqn:Hfree; [exact Hnow|].
    destruct (Z.gtb_spec (now - firstAttempt r) CONFIG.WINDOW_MS) as [Hlate|Hin].
    + apply map_Forall_insert_2; [apply record_inv_fresh | exact Hnow].
    + destruct (record_inv_counted t now r Hr Hle Hfree Hin) as [_ Hnew].
      destruct (count (bump r now) >=? CONFIG.MAX_ATTEMPTS); cbn [snd];
        apply map_Forall_insert_2; assumption.
  - apply map_Forall_insert_2; [apply record_inv_fresh | exact Hnow].
Qed.

Lemma exec_store_inv t now o (s : Store) :
  store_inv t s -> t <= now -> store_inv now (exec o now s).
Proof.
  intros Hinv Hle. pose proof (store_inv_later t now s Hinv Hle) as Hnow.
  destruct o as [identifier|identifier|identifier|]; simpl.
  - unfold checkRateLimit. destruct (s !! identifier) as [r|]; [|exact Hnow].
    destruct (blocked r); [|exact Hnow].
    destruct (blockedUntil r >? now); [exact Hnow|].
    apply map_Forall_delete. exact Hnow.
  - apply recordFailedAttempt_store_inv with t; assumption.
  - apply map_Forall_delete. exact Hnow.
  - intros key record Hc. rewrite cleanup_lookup in Hc.
    destruct (s !! key) as [r|] eqn:Hs; [|discriminate Hc].
    destruct (expired now r); [discriminate Hc|].
    injection Hc as <-. exact (Hnow key r Hs).
Qed.

Lemma reachable_store_inv t (s : Store) : reachable t s -> store_inv t s.
Proof.
  induction 1 as [t | t now s o Hreach IH Hle].
  - apply map_Forall_empty.
  - apply exec_store_inv with t; assumption.
Qed.

Lemma ceil_div_bounds a k :
  0 <= a <= 1000 * k -> 0 <= ceil_div a 1000 <= k.
Proof.
  intros [Hlo Hhi]. unfold ceil_div.
  assert (- a / 1000 <= 0) by (apply Z.div_le_upper_bound; lia).
  assert (- k <= - a / 1000) by (apply Z.div_le_lower_bound; lia).
  lia.
Qed.

(** X8.  Every record of a reachable store is of one of two kinds.
    Not blocked: its count is between 1 and 4 and [blockedUntil] is 0.
    Blocked: its count is exactly 5 and [blockedUntil] is
    [lastAttempt] plus the block duration.  In both, [firstAttempt <=
    lastAttempt <= ] the clock, and the two are at most a window apart. *)
Theorem reachable_records t (s : Store) identifier record :
  reachable t s ->
  s !! identifier = Some record ->
  firstAttempt record <= lastAttempt record <= t
  /\ lastAttempt record - firstAttempt record <= 900000
  /\ (if blocked record
      then count record = 5 /\ blockedUntil record = lastAttempt record + 1800000
      else 1 <= count record <= 4 /\ blockedUntil record = 0).
Proof.
  intros Hreach Hs.
  destruct (reachable_store_inv t s Hreach identifier record Hs)
    as (H1 & H2 & H3 & H4 & H5).
  rewrite max_value in H4, H5. rewrite window_value in H3. rewrite block_value in H5.
  split; [lia|]. split; [exact H3|].
  destruct (blocked record).
  - apply H5. reflexivity.
  - destruct (H4 eq_refl). split; [lia | assumption].
Qed.

Lemma reachable_records_witness :
  firstAttempt (mkRecord 5 0 0 true 1800000) <= lastAttempt (mkRecord 5 0 0 true 1800000) <= 0
  /\ lastAttempt (mkRecord 5 0 0 true 1800000) - firstAttempt (mkRecord 5 0 0 true 1800000)
     <= 900000
  /\ (if blocked (mkRecord 5 0 0 true 1800000)
      then count (mkRecord 5 0 0 true 1800000) = 5
           /\ blockedUntil (mkRecord 5 0 0 true 1800000)
              = lastAttempt (mkRecord 5 0 0 true 1800000) + 1800000
      else 1 <= count (mkRecord 5 0 0 true 1800000) <= 4
           /\ blockedUntil (mkRecord 5 0 0 true 1800000) = 0).
Proof.
  apply (reachable_records 0 locked_store "1.2.3.4").
  - exact locked_store_reachable.
  - exact locked_store_lookup.
Defined.

(** X9.  In a reachable store the branch of [checkRateLimit] that
    denies without a block (lines 99-107) is never taken: a check that
    denies reports [blocked] and carries the message of a block. *)
Theorem denied_check_is_blocked t (s : Store) identifier now :
  reachable t s ->
  success (checkRateLimit identifier now s).1 = false ->
  res_blocked (checkRateLimit identifier now s).1 = true
  /\ exists record,
       s !! identifier = Some record
       /\ (checkRateLimit identifier now s).1 = still_blocked record now.
Proof.
  intros Hreach. pose proof (reachable_store_inv t s Hreach identifier) as Hinv.
  unfold checkRateLimit.
  destruct (s !! identifier) as [r|]; [|discriminate].
  destruct (Hinv r eq_refl) as (_ & _ & _ & H4 & _).
  destruct (blocked r).
  - destruct (blockedUntil r >? now); [|discriminate].
    intros _. split; [reflexivity|]. exists r. split; reflexivity.
  - destruct (H4 eq_refl) as [Hcount _].
    unfold check_window. cbn [fst].
    destruct (now - firstAttempt r >? CONFIG.WINDOW_MS); [discriminate|].
    destruct (Z.leb_spec (CONFIG.MAX_ATTEMPTS - count r) 0); [lia | discriminate].
Qed.

Lemma denied_check_is_blocked_witness :
  res_blocked (checkRateLimit "1.2.3.4" 5 locked_store).1 = true
  /\ exists record,
       locked_store !! "1.2.3.4" = Some record
       /\ (checkRateLimit "1.2.3.4" 5 locked_store).1 = still_blocked record 5.
Proof.
  apply (denied_check_is_blocked 0 locked_store "1.2.3.4" 5).
  - exact locked_store_reachable.
  - reflexivity.
Defined.

(** X10.  In a reachable store, at a clock reading that is not
    earlier than the last one, the [resetIn] of every decision is
    between 0 and 1800 seconds (the block duration). *)
Theorem resetIn_bounds t (s : Store) identifier now :
  reachable t s ->
  t <= now ->
  0 <= resetIn (checkRateLimit identifier now s).1 <= 1800
  /\ 0 <= resetIn (recordFailedAttempt identifier now s).1 <= 1800.
Proof.
  intros Hreach Hle. pose proof (reachable_store_inv t s Hreach identifier) as Hinv.
  pose proof window_value as Hw. pose proof block_value as Hb.
  assert (Hfresh : 0 <= ceil_div CONFIG.WINDOW_MS 1000 <= 1800)
    by (apply ceil_div_bounds; lia).
  assert (Hlock : 0 <= ceil_div CONFIG.BLOCK_DURATION_MS 1000 <= 1800)
    by (apply ceil_div_bounds; lia).
  unfold checkRateLimit, recordFailedAttempt, start_window, count_failure,
    check_window, counted, locked_out, still_blocked.
  destruct (s !! identifier) as [r|]; [|split; exact Hfresh].
  destruct (Hinv r eq_refl) as (H1 & H2 & H3 & H4 & H5).
  destruct (blocked r).
  - destruct (H5 eq_refl) as [_ Huntil]. simpl andb.
    destruct (Z.gtb_spec (blockedUntil r) now).
    + split; cbn [fst resetIn]; apply ceil_div_bounds; lia.
    + split; [exact Hfresh|].
      destruct (Z.gtb_spec (now - firstAttempt r) CONFIG.WINDOW_MS); [exact Hfresh | lia].
  - simpl andb. cbv iota.
    destruct (Z.gtb_spec (now - firstAttempt r) CONFIG.WINDOW_MS);
      [split; exact Hfresh|].
    assert (0 <= ceil_div (firstAttempt r + CONFIG.WINDOW_MS - now) 1000 <= 1800)
      by (apply ceil_div_bounds; lia).
    split.
    + destruct (CONFIG.MAX_ATTEMPTS - count r <=? 0); assumption.
    + destruct (count (bump r now) >=? CONFIG.MAX_ATTEMPTS); cbn [fst resetIn];
        [exact Hlock | assumption].
Qed.

Lemma resetIn_bounds_witness :
  0 <= resetIn (checkRateLimit "1.2.3.4" 5 locked_store).1 <= 1800
  /\ 0 <= resetIn (recordFailedAttempt "1.2.3.4" 5 locked_store).1 <= 1800.
Proof.
  apply (resetIn_bounds 0 locked_store "1.2.3.4" 5).
  - exact locked_store_reachable.
  - lia.
Defined.

(** *** getClientIP *)

Lemma before_comma_no_comma value : occurs "," (before_comma value) = false.
Proof.
  induction value as [|c rest IH]; [reflexivity|]. cbn [before_comma]. unfold is_comma.
  destruct (Ascii.eqb c ",") eqn:Hc; [reflexivity|].
  cbn [occurs]. rewrite IH, Ascii.eqb_sym, Hc. reflexivity.
Qed.

Lemma occurs_trim_start c value :
  occurs c value = false -> occurs c (trim_start value) = false.
Proof.
  induction value as [|c' rest IH]; [reflexivity|]. intros Hno. cbn [trim_start].
  destruct (is_white_space c'); [|exact Hno].
  apply IH. cbn [occurs] in Hno. apply orb_false_iff in Hno. apply Hno.
Qed.

Lemma occurs_trim_end c value :
  occurs c value = false -> occurs c (trim_end value) = false.
Proof.
  induction value as [|c' rest IH]; [reflexivity|]. intros Hno.
  cbn [occurs] in Hno. apply orb_false_iff in Hno as [Hc Hrest]. specialize (IH Hrest).
  cbn [trim_end]. destruct (trim_end rest) as [|k kept].
  - destruct (is_white_space c'); [reflexivity|]. cbn [occurs]. rewrite Hc. reflexivity.
  - cbn [occurs] in IH |- *. rewrite Hc. exact IH.
Qed.

Lemma first_char_trim_start value c :
  first_char (trim_start value) = Some c -> is_white_space c = false.
Proof.
  induction value as [|c' rest IH]; [discriminate|]. simpl.
  destruct (is_white_space c') eqn:Hc'; [exact IH|].
  simpl. intros [= <-]. exact Hc'.
Qed.

Lemma first_char_trim_end value c :
  first_char (trim_end value) = Some c -> first_char value = Some c.
Proof.
  destruct value as [|c' rest]; [discriminate|]. simpl.
  destruct (trim_end rest); [destruct (is_white_space c'); [discriminate|]|];
    simpl; intros H; exact H.
Qed.

Lemma last_char_trim_end value c :
  last_char (trim_end value) = Some c -> is_white_space c = false.
Proof.
  induction value as [|c' rest IH]; [discriminate|]. simpl.
  destruct (trim_end rest) as [|k kept].
  - destruct (is_white_space c') eqn:Hc'; [discriminate|].
    simpl. intros [= <-]. exact Hc'.
  - exact IH.
Qed.

Lemma trim_start_empty value :
  trim_start value = EmptyString <-> all_white_space value = true.
Proof.
  induction value as [|c rest IH]; [split; reflexivity|]. simpl.
  destruct (is_white_space c); simpl; [exact IH|]. split; discriminate.
Qed.

Lemma trim_end_empty value :
  trim_end value = EmptyString <-> all_white_space value = true.
Proof.
  induction value as [|c rest IH]; [split; reflexivity|]. simpl.
  destruct (trim_end rest) as [|k kept].
  - destruct (is_white_space c); simpl.
    + split; intros _; [apply IH|]; reflexivity.
    + split; discriminate.
  - split; [discriminate|]. intros Hall. apply andb_true_iff in Hall as [_ Hall].
    apply IH in Hall. discriminate Hall.
Qed.

Lemma trim_empty value : trim value = EmptyString <-> all_white_space value = true.
Proof.
  unfold trim. rewrite trim_end_empty. split.
  - intros Hall. apply trim_start_empty.
    destruct (trim_start value) as [|c rest] eqn:Hts; [reflexivity|].
    assert (Hc : is_white_space c = false)
      by (apply first_char_trim_start with value; rewrite Hts; reflexivity).
    simpl in Hall. rewrite Hc in Hall. discriminate Hall.
  - intros Hall. apply trim_start_empty in Hall. rewrite Hall. reflexivity.
Qed.

Lemma truthy_not_empty value v : truthy value = Some v -> v <> EmptyString.
Proof. destruct value as [[|c rest]|]; simpl; intros [= <-]; discriminate. Qed.

(** X11.  When the identifier is taken from [x-forwarded-for] (no
    usable [cf-connecting-ip]), it holds no comma and neither starts
    nor ends with a white-space character. *)
Theorem forwarded_for_is_clean (headers : Headers) value :
  truthy (headers !! "cf-connecting-ip") = None ->
  truthy (headers !! "x-forwarded-for") = Some value ->
  getClientIP headers = trim (before_comma value)
  /\ occurs "," (getClientIP headers) = false
  /\ (forall c, first_char (getClientIP headers) = Some c -> is_white_space c = false)
  /\ (forall c, last_char (getClientIP headers) = Some c -> is_white_space c = false).
Proof.
  intros Hcf Hxff. unfold getClientIP. rewrite Hcf, Hxff.
  split; [reflexivity|]. split; [|split].
  - unfold trim. apply occurs_trim_end, occurs_trim_start, before_comma_no_comma.
  - intros c Hc. unfold trim in Hc. apply first_char_trim_end in Hc.
    apply first_char_trim_start with (before_comma value). exact Hc.
  - intros c Hc. apply last_char_trim_end with (trim_start (before_comma value)).
    exact Hc.
Qed.

Lemma forwarded_for_is_clean_witness :
  let headers : Headers :=
    <["x-forwarded-for" := " 1.2.3.4 , 10.0.0.1"]> (<["x-real-ip" := "9.9.9.9"]> ∅) in
  getClientIP headers = trim (before_comma " 1.2.3.4 , 10.0.0.1")
  /\ occurs "," (getClientIP headers) = false
  /\ (forall c, first_char (getClientIP headers) = Some c -> is_white_space c = false)
  /\ (forall c, last_char (getClientIP headers) = Some c -> is_white_space c = false).
Proof.
  apply (forwarded_for_is_clean
           (<["x-forwarded-for" := " 1.2.3.4 , 10.0.0.1"]> (<["x-real-ip" := "9.9.9.9"]> ∅))
           " 1.2.3.4 , 10.0.0.1").
  - reflexivity.
  - reflexivity.
Defined.

Example forwarded_for_first_entry :
  getClientIP (<["x-forwarded-for" := " 1.2.3.4 , 10.0.0.1"]> (<["x-real-ip" := "9.9.9.9"]> ∅))
  = "1.2.3.4".
Proof. reflexivity. Qed.

(** X12.  [getClientIP] returns the empty string in exactly one
    situation: no usable [cf-connecting-ip], and an [x-forwarded-for]
    that is not empty but has only white space before its first comma
    (or starts with the comma).  [x-real-ip] and the "unknown"
    fallback are not consulted then. *)
Theorem empty_identifier (headers : Headers) :
  getClientIP headers = EmptyString
  <-> truthy (headers !! "cf-connecting-ip") = None
      /\ exists value,
           truthy (headers !! "x-forwarded-for") = Some value
           /\ all_white_space (before_comma value) = true.
Proof.
  unfold getClientIP. split.
  - destruct (truthy (headers !! "cf-connecting-ip")) as [cf|] eqn:Hcf.
    + intros ->. apply truthy_not_empty in Hcf. contradiction.
    + destruct (truthy (headers !! "x-forwarded-for")) as [xff|] eqn:Hxff.
      * intros Hempty. split; [reflexivity|]. exists xff.
        split; [reflexivity|]. apply trim_empty. exact Hempty.
      * destruct (truthy (headers !! "x-real-ip")) as [real|] eqn:Hreal.
        -- intros ->. apply truthy_not_empty in Hreal. contradiction.
        -- discriminate.
  - intros (-> & value & -> & Hall). apply trim_empty. exact Hall.
Qed.

(** *** adminLogin *)

Section AdminLogin.
Variable signIn : string -> SignInOutcome.
Variable headersList : Headers.

Let clientIP : string := getClientIP headersList.

Lemma parse_password_some password :
  password <> EmptyString -> parse_password password = Some password.
Proof. destruct password; [contradiction | reflexivity]. Qed.

(** A check of an identifier that has no record, or a record that is
    not blocked and counts fewer than [MAX_ATTEMPTS] failures, allows
    and keeps the store. *)
Lemma checkRateLimit_open identifier now (s : Store) :
  s !! identifier = None
  \/ (exists record, s !! identifier = Some record
        /\ blocked record = false /\ count record < CONFIG.MAX_ATTEMPTS) ->
  success (checkRateLimit identifier now s).1 = true
  /\ (checkRateLimit identifier now s).2 = s.
Proof.
  unfold checkRateLimit, check_window.
  intros [-> | (record & -> & -> & Hcount)]; [split; reflexivity|].
  cbn [fst snd]. split; [|reflexivity].
  destruct (now - firstAttempt record >? CONFIG.WINDOW_MS); [reflexivity|].
  destruct (Z.leb_spec (CONFIG.MAX_ATTEMPTS - count record) 0); [lia | reflexivity].
Qed.

Lemma adminLogin_counts_failure password now1 now2 (s : Store) :
  s !! clientIP = None
  \/ (exists record, s !! clientIP = Some record
        /\ blocked record = false /\ count record < CONFIG.MAX_ATTEMPTS) ->
  password <> EmptyString ->
  signIn password <> SignedIn ->
  (adminLogin signIn headersList password now1 now2 s).2
  = (recordFailedAttempt clientIP now2 s).2.
Proof.
  intros Hopen Hpw Hfail. unfold adminLogin. fold clientIP.
  destruct (checkRateLimit_open clientIP now1 s Hopen) as [Hok Hsame].
  destruct (checkRateLimit clientIP now1 s) as [rateLimit s1].
  cbn [fst snd] in Hok, Hsame. subst s1. rewrite Hok. cbn [negb].
  rewrite (parse_password_some password Hpw).
  destruct (signIn password); [contradiction | | |];
    destruct (recordFailedAttempt clientIP now2 s); reflexivity.
Qed.

Lemma adminLogin_success_cases password now1 now2 (s : Store) :
  login_success (adminLogin signIn headersList password now1 now2 s).1 = true
  <-> success (checkRateLimit clientIP now1 s).1 = true
      /\ password <> EmptyString
      /\ signIn password = SignedIn.
Proof.
  unfold adminLogin. fold clientIP.
  destruct (checkRateLimit clientIP now1 s) as [rateLimit s1]. cbn [fst].
  destruct (success rateLimit); cbn [negb fst login_success].
  - destruct password as [|c rest]; cbn [parse_password fst login_success].
    + split; [discriminate | intros (_ & Hpw & _); contradiction].
    + destruct (signIn (String c rest));
        try destruct (recordFailedAttempt clientIP now2 s1);
        cbn [fst login_success]; split; intros H;
        try discriminate H; try (destruct H as (_ & _ & H); discriminate H);
        try reflexivity.
      repeat split. discriminate.
  - split; [discriminate | intros (Hs & _); discriminate Hs].
Qed.

Lemma adminLogins_cons_store a attempts (s : Store) :
  (adminLogins signIn headersList (a :: attempts) s).2
  = (adminLogins signIn headersList attempts
       (adminLogin signIn headersList (att_password a) (att_checked a) (att_recorded a) s).2).2.
Proof.
  cbn [adminLogins].
  destruct (adminLogin signIn headersList (att_password a) (att_checked a)
              (att_recorded a) s) as [res s1].
  cbn [snd]. destruct (adminLogins signIn headersList attempts s1). reflexivity.
Qed.

Lemma adminLogins_all_refused attempts : forall (s : Store),
  Forall (fun a => signIn (att_password a) <> SignedIn) attempts ->
  Forall (fun res => login_success res = false)
         (adminLogins signIn headersList attempts s).1.
Proof.
  induction attempts as [|a attempts IH]; intros s Hall; [constructor|].
  apply Forall_cons in Hall as [Ha Hall]. cbn [adminLogins].
  pose proof (adminLogin_success_cases (att_password a) (att_checked a)
                (att_recorded a) s) as Hcases.
  destruct (adminLogin signIn headersList (att_password a) (att_checked a)
              (att_recorded a) s) as [res s1].
  specialize (IH s1 Hall).
  destruct (adminLogins signIn headersList attempts s1) as [rs s2].
  cbn [fst] in *. constructor; [|exact IH].
  destruct (login_success res); [|reflexivity].
  destruct Hcases as [Hcases _]. destruct (Hcases eq_refl) as (_ & _ & Hin).
  contradiction.
Qed.

End AdminLogin.

(** X13.  While the client's identifier is blocked, [adminLogin]
    refuses whatever the password is and whatever [signIn] would
    answer, reports the block, and leaves the store as it is. *)
Theorem blocked_login_refused signIn (headersList : Headers) password now1 now2
    (s : Store) record :
  s !! getClientIP headersList = Some record ->
  blocked record = true ->
  now1 < blockedUntil record ->
  adminLogin signIn headersList password now1 now2 s
  = ({| login_success := false;
        login_message := msg_blocked (ceil_div (blockedUntil record - now1) 1000);
        login_remaining := Some 0;
        login_blocked := Some true |}, s).
Proof.
  intros Hs Hb Hlt. unfold adminLogin.
  rewrite (checkRateLimit_blocked (getClientIP headersList) now1 s record Hs Hb Hlt).
  reflexivity.
Qed.

Lemma blocked_login_refused_witness :
  adminLogin signIn_secret (<["x-real-ip" := "1.2.3.4"]> ∅) "secret" 5 6 locked_store
  = ({| login_success := false;
        login_message :=
          msg_blocked (ceil_div (blockedUntil (mkRecord 5 0 0 true 1800000) - 5) 1000);
        login_remaining := Some 0;
        login_blocked := Some true |}, locked_store).
Proof.
  apply (blocked_login_refused signIn_secret (<["x-real-ip" := "1.2.3.4"]> ∅) "secret" 5 6
           locked_store (mkRecord 5 0 0 true 1800000)).
  - exact locked_store_lookup.
  - reflexivity.
  - simpl. lia.
Defined.

(** X14.  [adminLogin] succeeds exactly when the check allows, the
    password is not empty and [signIn] returns without an error; the
    store it leaves then is the one it received without the record of
    the client's identifier. *)
Theorem login_succeeds_iff signIn (headersList : Headers) password now1 now2 (s : Store) :
  (login_success (adminLogin signIn headersList password now1 now2 s).1 = true
   <-> success (checkRateLimit (getClientIP headersList) now1 s).1 = true
       /\ password <> EmptyString
       /\ signIn password = SignedIn)
  /\ (login_success (adminLogin signIn headersList password now1 now2 s).1 = true ->
      (adminLogin signIn headersList password now1 now2 s).2
      = delete (getClientIP headersList) s).
Proof.
  split; [apply adminLogin_success_cases|].
  intros Hok. apply adminLogin_success_cases in Hok as (Hcheck & Hpw & Hin).
  unfold adminLogin.
  assert (Hstore : (checkRateLimit (getClientIP headersList) now1 s).2 = s
                   \/ (checkRateLimit (getClientIP headersList) now1 s).2
                      = delete (getClientIP headersList) s).
  { unfold checkRateLimit. destruct (s !! getClientIP headersList) as [r|]; [|left; reflexivity].
    destruct (blocked r); [|left; reflexivity].
    destruct (blockedUntil r >? now1); [left | right]; reflexivity. }
  destruct (checkRateLimit (getClientIP headersList) now1 s) as [rateLimit s1].
  cbn [fst snd] in Hcheck, Hstore. rewrite Hcheck. cbn [negb].
  rewrite (parse_password_some password Hpw), Hin. cbn [snd]. unfold clearRateLimit.
  destruct Hstore as [-> | ->]; [reflexivity | apply delete_delete_eq].
Qed.

(** X15.  A request that is refused before the password is verified -
    because the check denies, or because the password is empty - is
    not counted as a failure: the store is the one the check leaves,
    and neither [signIn] nor the second clock reading has any part in
    the outcome. *)
Theorem refused_before_verification signIn signIn' (headersList : Headers)
    password now1 now2 now2' (s : Store) :
  success (checkRateLimit (getClientIP headersList) now1 s).1 = false
  \/ password = EmptyString ->
  login_success (adminLogin signIn headersList password now1 now2 s).1 = false
  /\ (adminLogin signIn headersList password now1 now2 s).2
     = (checkRateLimit (getClientIP headersList) now1 s).2
  /\ adminLogin signIn headersList password now1 now2 s
     = adminLogin signIn' headersList password now1 now2' s.
Proof.
  intros Hcase. unfold adminLogin.
  destruct (checkRateLimit (getClientIP headersList) now1 s) as [rateLimit s1].
  cbn [fst snd] in *.
  destruct (success rateLimit); cbn [negb].
  - destruct Hcase as [Hc | ->]; [discriminate Hc|]. repeat split.
  - repeat split.
Qed.

Lemma refused_before_verification_witness :
  login_success
    (adminLogin signIn_secret (<["x-real-ip" := "5.6.7.8"]> ∅) "" 5 6 locked_store).1 = false
  /\ (adminLogin signIn_secret (<["x-real-ip" := "5.6.7.8"]> ∅) "" 5 6 locked_store).2
     = (checkRateLimit (getClientIP (<["x-real-ip" := "5.6.7.8"]> ∅)) 5 locked_store).2
  /\ adminLogin signIn_secret (<["x-real-ip" := "5.6.7.8"]> ∅) "" 5 6 locked_store
     = adminLogin (fun _ => SignedIn) (<["x-real-ip" := "5.6.7.8"]> ∅) "" 5 7 locked_store.
Proof.
  apply (refused_before_verification signIn_secret (fun _ => SignedIn)
           (<["x-real-ip" := "5.6.7.8"]> ∅) "" 5 6 7 locked_store).
  right. reflexivity.
Defined.

Lemma login_succeeds_iff_witness :
  (adminLogin signIn_secret (<["x-real-ip" := "5.6.7.8"]> ∅) "secret" 5 6 locked_store).2
  = delete (getClientIP (<["x-real-ip" := "5.6.7.8"]> ∅)) locked_store.
Proof.
  apply (proj2 (login_succeeds_iff signIn_secret (<["x-real-ip" := "5.6.7.8"]> ∅)
                  "secret" 5 6 locked_store)).
  reflexivity.
Defined.

(** One more failed request on a store whose record for the client
    counts fewer than four failures in a running window. *)
Lemma adminLogin_counted signIn (headersList : Headers) a (s : Store) record :
  att_password a <> EmptyString ->
  signIn (att_password a) <> SignedIn ->
  blocked record = false ->
  att_recorded a - firstAttempt record <= CONFIG.WINDOW_MS ->
  count record < CONFIG.MAX_ATTEMPTS ->
  (adminLogin signIn headersList (att_password a) (att_checked a) (att_recorded a)
     (<[getClientIP headersList := record]> s)).2
  = <[getClientIP headersList :=
        if count (bump record (att_recorded a)) >=? CONFIG.MAX_ATTEMPTS
        then lock (bump record (att_recorded a)) (att_recorded a)
        else bump record (att_recorded a)]> s.
Proof.
  intros Hpw Hfail Hfree Hin Hcount.
  rewrite adminLogin_counts_failure; [| | exact Hpw | exact Hfail].
  - rewrite (recordFailedAttempt_active _ _ _ record);
      [| apply lookup_insert_eq | rewrite Hfree; reflexivity | exact Hin].
    unfold count_failure.
    destruct (count (bump record (att_recorded a)) >=? CONFIG.MAX_ATTEMPTS);
      cbn [snd]; apply insert_insert_eq.
  - right. exists record. split; [apply lookup_insert_eq|]. split; assumption.
Qed.

(** X16.  Five requests in a row that fail verification (a result
    with an error, or an exception of either kind), from a client
    without a record and with the failures recorded inside one window,
    are all refused and leave the client blocked: until [blockedUntil]
    every further request is refused, the right password included,
    without changing the store. *)
Theorem brute_force_locked_out signIn (headersList : Headers) a1 rest (s : Store) :
  s !! getClientIP headersList = None ->
  Z.of_nat (length (a1 :: rest)) = CONFIG.MAX_ATTEMPTS ->
  Forall (fun a => att_password a <> EmptyString /\ signIn (att_password a) <> SignedIn)
         (a1 :: rest) ->
  Forall (fun a => att_recorded a - att_recorded a1 <= CONFIG.WINDOW_MS) rest ->
  let out := adminLogins signIn headersList (a1 :: rest) s in
  Forall (fun res => login_success res = false) out.1
  /\ exists record,
       out.2 !! getClientIP headersList = Some record
       /\ blocked record = true
       /\ forall signIn' password now1 now2,
            now1 < blockedUntil record ->
            login_success (adminLogin signIn' headersList password now1 now2 out.2).1 = false
            /\ (adminLogin signIn' headersList password now1 now2 out.2).2 = out.2.
Proof.
  intros Hs Hlen Hfail Hin out. subst out. rewrite max_value in Hlen.
  pose proof max_value as Hmax.
  split.
  { apply adminLogins_all_refused. eapply Forall_impl; [exact Hfail|].
    intros a [_ Ha]. exact Ha. }
  destruct rest as [|a2 [|a3 [|a4 [|a5 [|]]]]];
    try (exfalso; cbn [length] in Hlen; lia). clear Hlen.
  repeat match goal with
  | H : Forall _ (_ :: _) |- _ => apply Forall_cons in H as [? H]
  end.
  repeat match goal with H : _ /\ _ |- _ => destruct H end.
  rewrite adminLogins_cons_store.
  rewrite adminLogin_counts_failure; [| left; exact Hs | assumption | assumption].
  rewrite (recordFailedAttempt_absent _ _ s Hs). unfold start_window. cbn [snd].
  rewrite adminLogins_cons_store.
  rewrite adminLogin_counted; [| assumption | assumption | reflexivity | assumption
                               | simpl; lia].
  rewrite adminLogins_cons_store.
  rewrite adminLogin_counted; [| assumption | assumption | reflexivity | assumption
                               | simpl; lia].
  rewrite adminLogins_cons_store.
  rewrite adminLogin_counted; [| assumption | assumption | reflexivity | assumption
                               | simpl; lia].
  rewrite adminLogins_cons_store.
  rewrite adminLogin_counted; [| assumption | assumption | reflexivity | assumption
                               | simpl; lia].
  cbn [adminLogins snd].
  match goal with
  | |- exists record, <[_ := ?r]> _ !! _ = _ /\ _ => exists r
  end.
  split; [apply lookup_insert_eq|]. split; [reflexivity|].
  intros signIn' password now1 now2 Hlt. unfold adminLogin.
  erewrite checkRateLimit_blocked; [| apply lookup_insert_eq | reflexivity | exact Hlt].
  split; reflexivity.
Qed.

Lemma brute_force_locked_out_witness :
  let headersList : Headers := <["x-real-ip" := "1.2.3.4"]> ∅ in
  let attempts := [mkAttempt "a" 0 1; mkAttempt "b" 10 11; mkAttempt "c" 20 21;
                   mkAttempt "d" 30 31; mkAttempt "e" 40 41] in
  let out := adminLogins signIn_secret headersList attempts ∅ in
  Forall (fun res => login_success res = false) out.1
  /\ exists record,
       out.2 !! getClientIP headersList = Some record
       /\ blocked record = true
       /\ forall signIn' password now1 now2,
            now1 < blockedUntil record ->
            login_success (adminLogin signIn' headersList password now1 now2 out.2).1 = false
            /\ (adminLogin signIn' headersList password now1 now2 out.2).2 = out.2.
Proof.
  apply (brute_force_locked_out signIn_secret (<["x-real-ip" := "1.2.3.4"]> ∅)
           (mkAttempt "a" 0 1)
           [mkAttempt "b" 10 11; mkAttempt "c" 20 21; mkAttempt "d" 30 31;
            mkAttempt "e" 40 41] ∅).
  - reflexivity.
  - reflexivity.
  - repeat constructor; discriminate.
  - repeat constructor; rewrite window_value; simpl; lia.
Defined.

(** *** A check cannot be observed *)

(** X17.  In a reachable store, the deletion a check may perform is
    invisible afterwards: at the same or a later clock reading, every
    check and every recorded failure, for any identifier, is answered
    as if the earlier check had not run, and a recorded failure leaves
    the same record for its identifier. *)
Theorem check_is_unobservable t identifier identifier' now now' (s : Store) :
  reachable t s ->
  now <= now' ->
  (checkRateLimit identifier' now' (checkRateLimit identifier now s).2).1
  = (checkRateLimit identifier' now' s).1
  /\ (recordFailedAttempt identifier' now' (checkRateLimit identifier now s).2).1
     = (recordFailedAttempt identifier' now' s).1
  /\ (recordFailedAttempt identifier' now' (checkRateLimit identifier now s).2).2 !! identifier'
     = (recordFailedAttempt identifier' now' s).2 !! identifier'.
Proof.
  intros Hreach Hle.
  assert (Hsame : (checkRateLimit identifier now s).2 !! identifier' = s !! identifier'
                  -> (checkRateLimit identifier' now' (checkRateLimit identifier now s).2).1
                     = (checkRateLimit identifier' now' s).1
                     /\ (recordFailedAttempt identifier' now' (checkRateLimit identifier now s).2).1
                        = (recordFailedAttempt identifier' now' s).1
                     /\ (recordFailedAttempt identifier' now'
                           (checkRateLimit identifier now s).2).2 !! identifier'
                        = (recordFailedAttempt identifier' now' s).2 !! identifier').
  { intros Heq. split; [|split].
    - apply decisions_local. exact Heq.
    - apply decisions_local. exact Heq.
    - apply recordFailedAttempt_local_record. exact Heq. }
  destruct (decide (identifier' = identifier)) as [->|Hne];
    [|apply Hsame, checkRateLimit_frame; exact Hne].
  assert (Hstore : (checkRateLimit identifier now s).2 = s
                   \/ exists r, s !! identifier = Some r /\ blocked r = true
                         /\ blockedUntil r <= now
                         /\ (checkRateLimit identifier now s).2 = delete identifier s).
  { unfold checkRateLimit. destruct (s !! identifier) as [r|]; [|left; reflexivity].
    destruct (blocked r) eqn:Hb; [|left; reflexivity].
    destruct (Z.gtb_spec (blockedUntil r) now); [left; reflexivity|].
    right. exists r. repeat split; [exact Hb | lia]. }
  destruct Hstore as [Heq | (r & Hs & Hb & Hpast & Hdel)];
    [apply Hsame; rewrite Heq; reflexivity|].
  clear Hsame.
  destruct (reachable_store_ok t s Hreach identifier r Hs) as [_ Hblock].
  specialize (Hblock Hb). rewrite block_value in Hblock.
  rewrite Hdel.
  rewrite (recordFailedAttempt_absent identifier now' (delete identifier s))
    by apply lookup_delete_eq.
  rewrite (recordFailedAttempt_stale identifier now' s r Hs).
  - unfold start_window. cbn [fst snd]. rewrite !lookup_insert_eq.
    split; [|split; reflexivity].
    unfold checkRateLimit. rewrite lookup_delete_eq, Hs, Hb.
    destruct (Z.gtb_spec (blockedUntil r) now'); [lia | reflexivity].
  - rewrite Hb. simpl. destruct (Z.gtb_spec (blockedUntil r) now'); [lia | reflexivity].
  - rewrite window_value. lia.
Qed.

Lemma check_is_unobservable_witness :
  (checkRateLimit "1.2.3.4" 1800001 (checkRateLimit "1.2.3.4" 1800000 locked_store).2).1
  = (checkRateLimit "1.2.3.4" 1800001 locked_store).1
  /\ (recordFailedAttempt "1.2.3.4" 1800001
        (checkRateLimit "1.2.3.4" 1800000 locked_store).2).1
     = (recordFailedAttempt "1.2.3.4" 1800001 locked_store).1
  /\ (recordFailedAttempt "1.2.3.4" 1800001
        (checkRateLimit "1.2.3.4" 1800000 locked_store).2).2 !! "1.2.3.4"
     = (recordFailedAttempt "1.2.3.4" 1800001 locked_store).2 !! "1.2.3.4".
Proof.
  apply (check_is_unobservable 0 "1.2.3.4" "1.2.3.4" 1800000 1800001 locked_store).
  - exact locked_store_reachable.
  - lia.
Defined.

Lemma sequential_failures_counted_witness :
  exists record,
    (recordFailures "1.2.3.4" [0; 10; 20] ∅).2 !! "1.2.3.4" = Some record
    /\ count record = Z.of_nat (length [0; 10; 20])
    /\ blocked record = false.
Proof.
  apply (sequential_failures_counted "1.2.3.4" 0 [10; 20] ∅).
  - reflexivity.
  - repeat constructor; rewrite window_value; lia.
  - rewrite max_value. simpl. lia.
Defined.
